(** * vedo/assembly.py: grouping of renderable objects and Procrustes alignment

    A shallow embedding of [src/vedo/assembly.py].  Python objects live in a
    store and are named by their address; the module's functions are written
    in a state-and-exception monad over that store.  What the module
    delegates to the graphics toolkit (the alignment filter, the part
    collection of the scene node) and to the sibling mesh class is gathered
    in the [Externals] interface.  [Assembly.lighting] only forwards its
    arguments to the method of the same name of each part and is left
    out. *)

From Stdlib Require Import ZArith String Ascii.
From stdpp Require Import base list strings gmap.

Open Scope string_scope.
Open Scope list_scope.
Open Scope Z_scope.

(** ** Python values *)

Definition addr := nat.

(** The values that may occur in a sequence of renderables: [None], an
    integer, a reference to an object of the store, a (nested) list. *)
#[warnings="-register-all"]
Inductive value : Type :=
  | VNone
  | VInt (n : Z)
  | VRef (a : addr)
  | VList (l : list value).
Arguments VRef a%_nat.

(** Anything a caller may pass as a name or a selector, and anything an
    attribute may hold: a string or one of the values above. *)
Inductive pyobj : Type :=
  | PStr (s : string)
  | PVal (v : value).

(** Python's [==] on values.  Objects of the store define no [__eq__]:
    two references are equal when they are the same object. *)
Fixpoint value_eqb (x y : value) : bool :=
  match x, y with
  | VNone, VNone => true
  | VInt m, VInt n => Z.eqb m n
  | VRef a, VRef b => Nat.eqb a b
  | VList l, VList k =>
      (fix go (l k : list value) : bool :=
         match l, k with
         | [], [] => true
         | x' :: l', y' :: k' => value_eqb x' y' && go l' k'
         | _, _ => false
         end) l k
  | _, _ => false
  end.

(** [x == v] for a caller-supplied [x]: a string equals no value. *)
Definition py_eq (x : pyobj) (v : value) : bool :=
  match x with
  | PStr _ => false
  | PVal w => value_eqb w v
  end.

(** [x in l] for a Python list [l]. *)
Definition py_in (x : pyobj) (l : list value) : bool :=
  existsb (py_eq x) l.

(** Truth value of [if a:].  Renderables define neither [__bool__] nor
    [__len__], so a reference is always true. *)
Definition truthy (v : value) : bool :=
  match v with
  | VNone => false
  | VInt n => negb (Z.eqb n 0)
  | VRef _ => true
  | VList [] => false
  | VList (_ :: _) => true
  end.

(** [s in t] for two strings: [s] occurs in [t] as a substring. *)
Fixpoint str_in (s t : string) : bool :=
  String.prefix s t ||
  match t with
  | EmptyString => false
  | String _ t' => str_in s t'
  end.

(** Outcome of [s in n] for a string [s] and an attribute value [n]:
    substring test on a string, membership on a list (which holds no
    string), [None] for the [TypeError] of a value that is not iterable. *)
Definition str_in_obj (s : string) (n : pyobj) : option bool :=
  match n with
  | PStr t => Some (str_in s t)
  | PVal (VList l) => Some (py_in (PStr s) l)
  | PVal _ => None
  end.

(** Modelled from the spec: [utils.flatten] (vedo/utils.py is not part of
    the sources at hand).  "Nested structures are flattened into one ordered
    sequence"; "a single explicit flatten-once preprocessing step over a
    tree of sequences, producing one ordered list; depth is unbounded but
    finite". *)
Fixpoint flatten_value (v : value) : list value :=
  match v with
  | VList l =>
      (fix go (l : list value) : list value :=
         match l with
         | [] => []
         | x :: l' => flatten_value x ++ go l'
         end) l
  | _ => [v]
  end.

Definition flatten (l : list value) : list value := flatten_value (VList l).

(** [l[i]] with Python's negative indices; [None] is [IndexError]. *)
Definition py_index {A} (l : list A) (i : Z) : option A :=
  let n := Z.of_nat (length l) in
  if (0 <=? i) && (i <? n) then l !! Z.to_nat i
  else if (- n <=? i) && (i <? 0) then l !! Z.to_nat (n + i)
  else None.

(** ** What the module consumes *)

(** The external toolkit and the sibling mesh class.  The geometry and the
    alignment solver are opaque to this module. *)
Class Externals := {
  (** [vtkPolyData] and its number of points *)
  Polydata : Type;
  GetNumberOfPoints : Polydata → nat;
  (** [vtkProperty], [vtkLandmarkTransform], numpy arrays *)
  Property : Type;
  Transform : Type;
  ndarray : Type;
  (** [vtkProcrustesAlignmentFilter] started from the centroid, after
      [Update()]: from the rigid-body flag and the grouped inputs, the
      [i]-th output block, the mean points (as an array) and the landmark
      transform *)
  GetBlock : bool → list Polydata → nat → Polydata;
  GetMeanPoints : bool → list Polydata → ndarray;
  GetLandmarkTransform : bool → list Polydata → Transform;
  (** what a freshly built [Mesh] carries besides its points *)
  Mesh_name : option pyobj;
  Mesh_flagText : option pyobj;
  Mesh_anchors : option (pyobj * pyobj);
  Mesh_property : Property;
}.

Section Store.
Context `{Externals}.

(** ** Objects and the store *)

(** A renderable object, seen through the attributes and methods this
    module uses.  [None] for an attribute the object does not have. *)
Record object := {
  o_name : option pyobj;
  o_flagText : option pyobj;
  o_base : option pyobj;
  o_top : option pyobj;
  o_polydata : option Polydata;   (* point sets: [polydata()], [N()] *)
  o_property : option Property;   (* actors: [GetProperty()] *)
  o_clone : bool;                 (* has a [clone()] method *)
}.

Inductive attr := attr_name | attr_flagText | attr_base | attr_top.

Definition obj_attr (o : object) (k : attr) : option pyobj :=
  match k with
  | attr_name => o_name o
  | attr_flagText => o_flagText o
  | attr_base => o_base o
  | attr_top => o_top o
  end.

Definition obj_set (o : object) (k : attr) (x : pyobj) : object :=
  match k with
  | attr_name =>
      {| o_name := Some x; o_flagText := o_flagText o; o_base := o_base o;
         o_top := o_top o; o_polydata := o_polydata o;
         o_property := o_property o; o_clone := o_clone o |}
  | attr_flagText =>
      {| o_name := o_name o; o_flagText := Some x; o_base := o_base o;
         o_top := o_top o; o_polydata := o_polydata o;
         o_property := o_property o; o_clone := o_clone o |}
  | attr_base =>
      {| o_name := o_name o; o_flagText := o_flagText o; o_base := Some x;
         o_top := o_top o; o_polydata := o_polydata o;
         o_property := o_property o; o_clone := o_clone o |}
  | attr_top =>
      {| o_name := o_name o; o_flagText := o_flagText o; o_base := o_base o;
         o_top := Some x; o_polydata := o_polydata o;
         o_property := o_property o; o_clone := o_clone o |}
  end.

Definition obj_set_property (o : object) (p : Property) : object :=
  {| o_name := o_name o; o_flagText := o_flagText o; o_base := o_base o;
     o_top := o_top o; o_polydata := o_polydata o;
     o_property := Some p; o_clone := o_clone o |}.

(** The state of an [Assembly] instance. *)
Record assembly := {
  actors : list value;            (* [self.actors] *)
  a_base : pyobj;                 (* [self.base] *)
  a_top : pyobj;                  (* [self.top] *)
  parts : list addr;              (* the parts of the [vtkAssembly] node *)
  transform : option Transform;   (* [self.transform] *)
  info : gmap string ndarray;     (* [self.info] *)
}.

Record state := {
  heap : list object;             (* renderables, by address *)
  assemblies : list assembly;     (* [Assembly] instances, by address *)
  log : list string;              (* what [vedo.logger.error] received *)
}.

(** ** The monad: state and exceptions *)

(** The four exceptions of the module, and [InterpreterCrash]: no Python
    exception but the end of the process on a fault inside the toolkit.
    As after an exception, nothing that follows it runs, and nothing can
    be said of the state it leaves. *)
Inductive exn :=
  | RuntimeError | TypeError | AttributeError | IndexError
  | InterpreterCrash.

Inductive outcome (A : Type) : Type :=
  | Ok (a : A)
  | Raise (e : exn).
Global Arguments Ok {A} a.
Global Arguments Raise {A} e.

Definition M (A : Type) : Type := state → outcome A * state.

Definition ret {A} (a : A) : M A := λ st, (Ok a, st).
Definition raise {A} (e : exn) : M A := λ st, (Raise e, st).
Definition bind {A B} (c : M A) (k : A → M B) : M B :=
  λ st, match c st with
        | (Ok a, st') => k a st'
        | (Raise e, st') => (Raise e, st')
        end.

End Store.

Notation "x <~ c ;; k" := (bind c (λ x, k))
  (at level 100, c at next level, right associativity).
Notation "c ;;; k" := (bind c (λ _, k))
  (at level 100, right associativity).

Section Code.
Context `{Externals}.

(** ** Access to the store *)

Definition set_heap (st : state) (h : list object) : state :=
  {| heap := h; assemblies := assemblies st; log := log st |}.

Definition set_assemblies (st : state) (l : list assembly) : state :=
  {| heap := heap st; assemblies := l; log := log st |}.

(** [hasattr(v, k)]: [None], integers and lists have none of the four
    attributes.  An address that holds no object, which no state reached
    from Python has, reads as an object without attributes. *)
Definition hasattr (v : value) (k : attr) : M bool :=
  λ st,
    (Ok match v with
        | VRef a =>
            match heap st !! a with
            | Some o => match obj_attr o k with Some _ => true | None => false end
            | None => false
            end
        | _ => false
        end, st).

(** [v.k]; [AttributeError] when [v] has no such attribute. *)
Definition getattr (v : value) (k : attr) : M pyobj :=
  λ st,
    match v with
    | VRef a =>
        match heap st !! a with
        | Some o =>
            match obj_attr o k with
            | Some x => (Ok x, st)
            | None => (Raise AttributeError, st)
            end
        | None => (Raise AttributeError, st)
        end
    | _ => (Raise AttributeError, st)
    end.

(** [a.k = x] on an object of the store. *)
Definition setattr (a : addr) (k : attr) (x : pyobj) : M unit :=
  λ st,
    match heap st !! a with
    | Some o => (Ok tt, set_heap st (<[a := obj_set o k x]> (heap st)))
    | None => (Raise AttributeError, st)
    end.

(** [vedo.logger.error(msg)] *)
Definition logger_error (msg : string) : M unit :=
  λ st, (Ok tt, {| heap := heap st; assemblies := assemblies st;
                   log := log st ++ [msg] |}).

(** ** The point-set and mesh interface *)

(** Modelled from the spec: the point-set interface of a source (the mesh
    and point-cloud classes are not part of the sources at hand): "each
    exposing a point count and an underlying geometric point-set
    representation".  [polydata()] returns the representation, [N()] its
    number of points; an object that is no point set has neither method. *)
Definition polydata (v : value) : M Polydata :=
  λ st,
    match v with
    | VRef a =>
        match heap st !! a with
        | Some o =>
            match o_polydata o with
            | Some p => (Ok p, st)
            | None => (Raise AttributeError, st)
            end
        | None => (Raise AttributeError, st)
        end
    | _ => (Raise AttributeError, st)
    end.

Definition N (v : value) : M nat :=
  p <~ polydata v ;; ret (GetNumberOfPoints p).

(** [s.GetProperty()] of an actor. *)
Definition GetProperty (v : value) : M Property :=
  λ st,
    match v with
    | VRef a =>
        match heap st !! a with
        | Some o =>
            match o_property o with
            | Some p => (Ok p, st)
            | None => (Raise AttributeError, st)
            end
        | None => (Raise AttributeError, st)
        end
    | _ => (Raise AttributeError, st)
    end.

(** [mesh.SetProperty(p)] *)
Definition SetProperty (a : addr) (p : Property) : M unit :=
  λ st,
    match heap st !! a with
    | Some o => (Ok tt, set_heap st (<[a := obj_set_property o p]> (heap st)))
    | None => (Raise AttributeError, st)
    end.

(** Modelled from the spec: the mesh constructor [Mesh(poly)] (vedo/mesh.py
    is not part of the sources at hand): "wrap the corresponding aligned
    output point set into a new renderable mesh object".  The new object
    takes the next free address. *)
Definition Mesh (poly : Polydata) : M addr :=
  λ st,
    (Ok (length (heap st)),
     set_heap st
       (heap st ++
        [{| o_name := Mesh_name; o_flagText := Mesh_flagText;
            o_base := fst <$> Mesh_anchors; o_top := snd <$> Mesh_anchors;
            o_polydata := Some poly; o_property := Some Mesh_property;
            o_clone := true |}])).

(** Modelled from the spec: the [clone()] method of a part (defined by the
    classes of the parts, which are not part of the sources at hand):
    "deep clones of each current part", "a distinct object from its source
    (not the same reference) but equivalent content"; "fails (propagates)
    if any part's clone operation fails".  The copy takes the next free
    address; a value without the method raises. *)
Definition part_clone (v : value) : M value :=
  λ st,
    match v with
    | VRef a =>
        match heap st !! a with
        | Some o =>
            if o_clone o
            then (Ok (VRef (length (heap st))), set_heap st (heap st ++ [o]))
            else (Raise AttributeError, st)
        | None => (Raise AttributeError, st)
        end
    | _ => (Raise AttributeError, st)
    end.

(** ** class Assembly *)

Definition get_assembly (self : addr) : M assembly :=
  λ st,
    match assemblies st !! self with
    | Some s => (Ok s, st)
    | None => (Raise AttributeError, st)
    end.

Definition put_assembly (self : addr) (s : assembly) : M unit :=
  λ st, (Ok tt, set_assemblies st (<[self := s]> (assemblies st))).

Definition set_actors (s : assembly) (l : list value) : assembly :=
  {| actors := l; a_base := a_base s; a_top := a_top s; parts := parts s;
     transform := transform s; info := info s |}.

Definition set_base (s : assembly) (x : pyobj) : assembly :=
  {| actors := actors s; a_base := x; a_top := a_top s; parts := parts s;
     transform := transform s; info := info s |}.

Definition set_top (s : assembly) (x : pyobj) : assembly :=
  {| actors := actors s; a_base := a_base s; a_top := x; parts := parts s;
     transform := transform s; info := info s |}.

Definition set_parts (s : assembly) (ps : list addr) : assembly :=
  {| actors := actors s; a_base := a_base s; a_top := a_top s; parts := ps;
     transform := transform s; info := info s |}.

Definition set_transform (s : assembly) (t : Transform) : assembly :=
  {| actors := actors s; a_base := a_base s; a_top := a_top s;
     parts := parts s; transform := Some t; info := info s |}.

Definition set_info (s : assembly) (k : string) (x : ndarray) : assembly :=
  {| actors := actors s; a_base := a_base s; a_top := a_top s;
     parts := parts s; transform := transform s; info := <[k := x]> (info s) |}.

(** [self.f = ...]: update a field of the instance at [self]. *)
Definition update (self : addr) (f : assembly → assembly) : M unit :=
  s <~ get_assembly self ;; put_assembly self (f s).

(** [vtkAssembly::AddPart] of the toolkit, through its Python binding: a
    prop that is not yet a part is appended to the part collection; a
    number or a list, which is no toolkit object, is refused by the
    binding with a [TypeError]; [None] is handed over as a null pointer,
    on which the toolkit faults and the interpreter dies. *)
Definition AddPart (self : addr) (v : value) : M unit :=
  match v with
  | VRef a =>
      update self (λ s, set_parts s (if bool_decide (a ∈ parts s)
                                     then parts s else parts s ++ [a]))
  | VNone => raise InterpreterCrash
  | VInt _ | VList _ => raise TypeError
  end.

(** The instance as [vtkAssembly.__init__] and [Base3DProp.__init__] leave
    it: no part, an empty [info], no transform. *)
Definition blank : assembly :=
  {| actors := []; a_base := PVal VNone; a_top := PVal VNone; parts := [];
     transform := None; info := ∅ |}.

Definition new_assembly : M addr :=
  λ st, (Ok (length (assemblies st)),
         set_assemblies st (assemblies st ++ [blank])).

(** [for a in meshs: if a: self.AddPart(a)] *)
Fixpoint add_truthy (self : addr) (meshs : list value) : M unit :=
  match meshs with
  | [] => ret tt
  | a :: rest =>
      (if truthy a then AddPart self a else ret tt) ;;;
      add_truthy self rest
  end.

(** The anchors of the instance, lines 77 to 82 of the source:
    [if len(meshs) and hasattr(meshs[0], "top")], the [base] and the [top]
    of the first element are read and assigned in turn, else both are set
    to [None]. *)
Definition init_anchors (self : addr) (meshs : list value) : M unit :=
  match meshs with
  | m0 :: _ =>
      has <~ hasattr m0 attr_top ;;
      if has : bool
      then b <~ getattr m0 attr_base ;;
           update self (λ s, set_base s b) ;;;
           t <~ getattr m0 attr_top ;;
           update self (λ s, set_top s t)
      else update self (λ s, set_base s (PVal VNone)) ;;;
           update self (λ s, set_top s (PVal VNone))
  | [] => update self (λ s, set_base s (PVal VNone)) ;;;
          update self (λ s, set_top s (PVal VNone))
  end.

(** [Assembly.__init__(self, *meshs)].  With one argument, that argument is
    the sequence; otherwise the arguments are flattened.  A single argument
    that is no list makes [len(meshs)] raise; the assignment of
    [self.actors] that precedes it in the source is then to an instance
    nobody holds, and the model raises at once. *)
Definition __init__ (self : addr) (meshs : list value) : M unit :=
  meshs <~ match meshs with
           | [m] => match m with VList l => ret l | _ => raise TypeError end
           | _ => ret (flatten meshs)
           end ;;
  update self (λ s, set_actors s meshs) ;;;
  init_anchors self meshs ;;;
  add_truthy self meshs.

(** The call of the class on its arguments: a new instance, initialised. *)
Definition Assembly (meshs : list value) : M addr :=
  self <~ new_assembly ;;
  __init__ self meshs ;;;
  ret self.

(** [for a in meshs: self.AddPart(a)] *)
Fixpoint add_each (self : addr) (meshs : list value) : M unit :=
  match meshs with
  | [] => ret tt
  | a :: rest => AddPart self a ;;; add_each self rest
  end.

(** [Assembly.__add__(self, meshs)] *)
Definition __add__ (self : addr) (meshs : value) : M addr :=
  match meshs with
  | VList l => add_each self l
  | _ => AddPart self meshs
  end ;;;
  ret self.

(** [Assembly.__contains__(self, name)] *)
Definition __contains__ (self : addr) (name : pyobj) : M bool :=
  s <~ get_assembly self ;; ret (py_in name (actors s)).

(** [for a in self.actors: newlist.append(a.clone())] *)
Fixpoint clone_each (l : list value) (newlist : list value) : M (list value) :=
  match l with
  | [] => ret newlist
  | a :: rest => c <~ part_clone a ;; clone_each rest (newlist ++ [c])
  end.

(** [Assembly.clone(self)] *)
Definition clone (self : addr) : M addr :=
  s <~ get_assembly self ;;
  newlist <~ clone_each (actors s) [] ;;
  Assembly [VList newlist].

(** [for m in self.actors: if i in m.name: return m], then [return None] *)
Fixpoint unpack_str (i : string) (l : list value) : M value :=
  match l with
  | [] => ret VNone
  | m :: rest =>
      n <~ getattr m attr_name ;;
      match str_in_obj i n with
      | Some true => ret m
      | Some false => unpack_str i rest
      | None => raise TypeError
      end
  end.

(** [Assembly.unpack(self, i=None)] *)
Definition unpack (self : addr) (i : pyobj) : M value :=
  s <~ get_assembly self ;;
  match i with
  | PVal VNone => ret (VList (actors s))
  | PVal (VInt k) =>
      match py_index (actors s) k with
      | Some v => ret v
      | None => raise IndexError
      end
  | PStr str => unpack_str str (actors s)
  | PVal _ => ret VNone
  end.

(** ** procrustesAlignment *)

Definition mismatch_message : string :=
  "in procrustesAlignment() sources have different nr of points".

(** The first loop: every source is compared with [sources[0]] and its
    point set is added to the group. *)
Fixpoint group_sources (first : value) (sources : list value)
    (group : list Polydata) : M (list Polydata) :=
  match sources with
  | [] => ret group
  | source :: rest =>
      n0 <~ N first ;;
      n <~ N source ;;
      if negb (Nat.eqb n0 n)
      then logger_error mismatch_message ;;;
           raise RuntimeError
      else p <~ polydata source ;;
           group_sources first rest (group ++ [p])
  end.

(** The second loop: the [i]-th output block is wrapped in a new mesh that
    takes the property of the [i]-th source, and its name and flag text
    when the source has a name. *)
Fixpoint wrap_outputs (block : nat → Polydata) (i : nat)
    (sources : list value) (acts : list value) : M (list value) :=
  match sources with
  | [] => ret acts
  | s :: rest =>
      mesh <~ Mesh (block i) ;;
      p <~ GetProperty s ;;
      SetProperty mesh p ;;;
      has <~ hasattr s attr_name ;;
      (if has : bool
       then n <~ getattr s attr_name ;;
            setattr mesh attr_name n ;;;
            f <~ getattr s attr_flagText ;;
            setattr mesh attr_flagText f
       else ret tt) ;;;
      wrap_outputs block (S i) rest (acts ++ [VRef mesh])
  end.

Definition procrustesAlignment (sources : list value) (rigid : bool) : M addr :=
  group <~ match sources with
           | [] => ret []
           | first :: _ => group_sources first sources []
           end ;;
  acts <~ wrap_outputs (GetBlock rigid group) 0 sources [] ;;
  assem <~ Assembly [VList acts] ;;
  update assem (λ s, set_transform s (GetLandmarkTransform rigid group)) ;;;
  update assem (λ s, set_info s "mean" (GetMeanPoints rigid group)) ;;;
  ret assem.

End Code.

(** ** A concrete instance of the interface, for examples *)

(** Point sets are lists of integer triples, the filter returns its inputs
    unchanged, the transform records the rigid-body flag. *)
Definition sample_externals : Externals :=
  {| Polydata := list (Z * Z * Z);
     GetNumberOfPoints := λ p, length p;
     Property := nat;
     Transform := bool;
     ndarray := list (Z * Z * Z);
     GetBlock := λ _ group i, default [] (group !! i);
     GetMeanPoints := λ _ group, default [] (head group);
     GetLandmarkTransform := λ rigid _, rigid;
     Mesh_name := Some (PStr "");
     Mesh_flagText := Some (PVal VNone);
     Mesh_anchors := Some (PVal (VList [VInt 0; VInt 0; VInt 0]),
                           PVal (VList [VInt 0; VInt 0; VInt 1]));
     Mesh_property := 0%nat |}.

Section Examples.
#[local] Existing Instance sample_externals.

(** A mesh named [nm] with [n] points at the origin. *)
Definition sample_mesh (nm : string) (n : nat) : object :=
  {| o_name := Some (PStr nm); o_flagText := Some (PVal VNone);
     o_base := Some (PVal (VList [VInt 0; VInt 0; VInt 0]));
     o_top := Some (PVal (VList [VInt 0; VInt 0; VInt 1]));
     o_polydata := Some (replicate n (0, 0, 0)); o_property := Some 7%nat;
     o_clone := true |}.

(** A bare toolkit actor: no name, no anchors, no point-set interface. *)
Definition bare_actor : object :=
  {| o_name := None; o_flagText := None; o_base := None; o_top := None;
     o_polydata := None; o_property := Some 0%nat; o_clone := false |}.

(** A bare toolkit actor on which only [top] was set. *)
Definition top_only : object :=
  {| o_name := None; o_flagText := None; o_base := None;
     o_top := Some (PVal (VList [VInt 0; VInt 0; VInt 1]));
     o_polydata := None; o_property := Some 0%nat; o_clone := false |}.

(** Three meshes [0], [1], [2] named "alpha", "beta", "gamma" with 4 points
    each, a mesh [3] with 5 points, the bare actors [4] and [5]. *)
Definition sample_state : state :=
  {| heap := [sample_mesh "alpha" 4; sample_mesh "beta" 4;
              sample_mesh "gamma" 4; sample_mesh "delta" 5;
              bare_actor; top_only];
     assemblies := [];
     log := [] |}.

(** [sample_state] after [Assembly([alpha, beta, gamma])]. *)
Definition sample_group : assembly :=
  {| actors := [VRef 0; VRef 1; VRef 2];
     a_base := PVal (VList [VInt 0; VInt 0; VInt 0]);
     a_top := PVal (VList [VInt 0; VInt 0; VInt 1]);
     parts := [0; 1; 2]%nat; transform := None; info := ∅ |}.

Definition sample_grouped : state :=
  {| heap := heap sample_state; assemblies := [sample_group]; log := [] |}.

(** [sample_state] after [Assembly([None, alpha])]. *)
Definition sample_group_none : assembly :=
  {| actors := [VNone; VRef 0]; a_base := PVal VNone; a_top := PVal VNone;
     parts := [0%nat]; transform := None; info := ∅ |}.

Definition sample_with_none : state :=
  {| heap := heap sample_state; assemblies := [sample_group_none];
     log := [] |}.

(** [sample_state] after [Assembly([actor, alpha])], the first part being
    the bare toolkit actor. *)
Definition sample_group_bare : assembly :=
  {| actors := [VRef 4; VRef 0]; a_base := PVal VNone; a_top := PVal VNone;
     parts := [4; 0]%nat; transform := None; info := ∅ |}.

Definition sample_with_bare : state :=
  {| heap := heap sample_state; assemblies := [sample_group_bare];
     log := [] |}.

End Examples.

(** ** Vocabulary of the statements *)

(** [s] occurs in [t]: some text before, [s], some text after. *)
Definition substring_of (s t : string) : Prop :=
  ∃ pre post : string, t = (pre ++ s ++ post)%string.

(** No element of [l] is itself a list. *)
Definition flat (l : list value) : Prop :=
  Forall (λ v, ∀ k, v ≠ VList k) l.

Section Vocabulary.
Context `{Externals}.

(** The object a value refers to. *)
Definition obj_of (st : state) (v : value) : option object :=
  match v with
  | VRef a => heap st !! a
  | _ => None
  end.

(** The attribute [k] of [v], when [v] is an object that has it. *)
Definition attr_of (st : state) (v : value) (k : attr) : option pyobj :=
  match obj_of st v with
  | Some o => obj_attr o k
  | None => None
  end.

(** [v] is an object whose name is the string [t]. *)
Definition named (st : state) (v : value) (t : string) : Prop :=
  attr_of st v attr_name = Some (PStr t).

(** The point set and the point count of a source. *)
Definition polydata_of (st : state) (v : value) : option Polydata :=
  match obj_of st v with
  | Some o => o_polydata o
  | None => None
  end.

Definition point_count (st : state) (v : value) : option nat :=
  GetNumberOfPoints <$> polydata_of st v.

(** [v] is a source of the alignment: an object with a point set and a
    property, which carries a flag text whenever it carries a name. *)
Definition is_source (st : state) (v : value) : Prop :=
  ∃ o, obj_of st v = Some o ∧
       is_Some (o_polydata o) ∧ is_Some (o_property o) ∧
       (is_Some (o_name o) → is_Some (o_flagText o)).

(** [v] is a part that supports cloning. *)
Definition cloneable (st : state) (v : value) : Prop :=
  ∃ o, obj_of st v = Some o ∧ o_clone o = true.

(** Every entry of [l] that counts as true is a renderable object. *)
Definition renderables (l : list value) : Prop :=
  Forall (λ v, truthy v = true → ∃ a, v = VRef a) l.

(** The first entry of [l], if it has a [top], has a [base] too. *)
Definition anchored (st : state) (l : list value) : Prop :=
  ∀ m0, head l = Some m0 →
        is_Some (attr_of st m0 attr_top) → is_Some (attr_of st m0 attr_base).

(** The sequence the constructor stores for its arguments: the single
    argument itself, else the flattened arguments. *)
Definition stored_sequence (args : list value) : option (list value) :=
  match args with
  | [VList l] => Some l
  | [_] => None
  | _ => Some (flatten args)
  end.

(** The part collection after one more prop. *)
Definition add_part (ps : list addr) (a : addr) : list addr :=
  if bool_decide (a ∈ ps) then ps else ps ++ [a].

(** The part collection after every object of [l] was added in turn. *)
Fixpoint registered (l : list value) (ps : list addr) : list addr :=
  match l with
  | [] => ps
  | VRef a :: rest => registered rest (add_part ps a)
  | _ :: rest => registered rest ps
  end.

(** What [__add__] hands to the scene node: the elements of a list, or
    the object itself. *)
Definition added_items (meshs : value) : list value :=
  match meshs with
  | VList l => l
  | _ => [meshs]
  end.

(** The anchors an assembly takes from the sequence [l]. *)
Definition anchors_of (st : state) (l : list value) : pyobj * pyobj :=
  match l with
  | m0 :: _ =>
      match attr_of st m0 attr_top, attr_of st m0 attr_base with
      | Some t, Some b => (b, t)
      | _, _ => (PVal VNone, PVal VNone)
      end
  | [] => (PVal VNone, PVal VNone)
  end.

(** The instance [s0] once initialised with the sequence [l]. *)
Definition built (st : state) (s0 : assembly) (l : list value) : assembly :=
  {| actors := l;
     a_base := fst (anchors_of st l);
     a_top := snd (anchors_of st l);
     parts := registered l (parts s0);
     transform := transform s0;
     info := info s0 |}.

(** The mesh that wraps the [i]-th output block for the source [o]: the
    points of the block, the property of the source, and its name and flag
    text when it has a name. *)
Definition wrapped (block : nat → Polydata) (i : nat) (o : object) : object :=
  {| o_name := match o_name o with Some n => Some n | None => Mesh_name end;
     o_flagText := match o_name o with
                   | Some _ => o_flagText o
                   | None => Mesh_flagText
                   end;
     o_base := fst <$> Mesh_anchors;
     o_top := snd <$> Mesh_anchors;
     o_polydata := Some (block i);
     o_property := o_property o;
     o_clone := true |}.

Fixpoint wrapped_from (block : nat → Polydata) (i : nat)
    (objs : list object) : list object :=
  match objs with
  | [] => []
  | o :: rest => wrapped block i o :: wrapped_from block (S i) rest
  end.

(** Weakest precondition of a computation: [Q] on a result, [E] on an
    exception. *)
Definition wp {A} (c : M A) (Q : A → state → Prop) (E : exn → state → Prop)
    (st : state) : Prop :=
  match c st with
  | (Ok a, st') => Q a st'
  | (Raise e, st') => E e st'
  end.

(** [st'] keeps every object and every assembly of [st] as it is. *)
Definition extends (st st' : state) : Prop :=
  heap st `prefix_of` heap st' ∧ assemblies st `prefix_of` assemblies st'.

(** [c], run from a state that extends [st0], ends in a state that
    extends [st0], whether it returns or raises; a result satisfies [Q]. *)
Definition framed (st0 : state) {A} (c : M A) (Q : A → Prop) : Prop :=
  ∀ st, extends st0 st →
        wp c (λ a st', extends st0 st' ∧ Q a) (λ _ st', extends st0 st') st.

End Vocabulary.

(** ** Vocabulary of the further properties *)

Section FurtherVocabulary.
Context `{Externals}.

(** [v] has no [clone()] method: it is no object, or an object without
    the method. *)
Definition uncloneable (st : state) (v : value) : Prop :=
  match v with
  | VRef a => ∃ o, heap st !! a = Some o ∧ o_clone o = false
  | _ => True
  end.

(** [s'] is [s] with, possibly, more parts on its scene node. *)
Definition grown (s s' : assembly) : Prop :=
  actors s' = actors s ∧ a_base s' = a_base s ∧ a_top s' = a_top s ∧
  transform s' = transform s ∧ info s' = info s ∧ parts s ⊆ parts s'.

(** [c] keeps [I]: from a state in [I] it ends in a state in [I], whether
    it returns or raises. *)
Definition preserves (I : state → Prop) {A} (c : M A) : Prop :=
  ∀ st, I st → I (snd (c st)).

(** The states that differ from [st0] only in the parts registered on the
    scene node of the assembly [self]. *)
Definition parts_grown (st0 : state) (self : addr) (st : state) : Prop :=
  heap st = heap st0 ∧ log st = log st0 ∧
  length (assemblies st) = length (assemblies st0) ∧
  ∀ j s, assemblies st0 !! j = Some s →
         ∃ s', assemblies st !! j = Some s' ∧
               (j ≠ self → s' = s) ∧ grown s s'.

(** The states that differ from [st0] only by one more assembly. *)
Definition one_more (st0 : state) (st : state) : Prop :=
  heap st = heap st0 ∧ log st = log st0 ∧
  ∃ s, assemblies st = assemblies st0 ++ [s].

End FurtherVocabulary.

(** * Properties *)

(** ** Values, equality, strings *)

(** Induction on values that reaches the elements of a nested list. *)
Lemma value_ind_nested (P : value → Prop) :
  P VNone →
  (∀ n, P (VInt n)) →
  (∀ a, P (VRef a)) →
  (∀ l, Forall P l → P (VList l)) →
  ∀ v, P v.
Proof.
  intros HN HI HR HL. fix IH 1. intros [ | n | a | l].
  - exact HN.
  - apply HI.
  - apply HR.
  - apply HL. induction l as [ | x l IHl]; constructor; [apply IH | exact IHl].
Qed.

Lemma value_eqb_refl (v : value) : value_eqb v v = true.
Proof.
  induction v as [ | n | a | l IH] using value_ind_nested; simpl.
  - reflexivity.
  - apply Z.eqb_refl.
  - apply Nat.eqb_refl.
  - induction IH as [ | x l Hx _ IHl]; [reflexivity | ].
    rewrite Hx. exact IHl.
Qed.

Lemma value_eqb_eq (x y : value) : value_eqb x y = true ↔ x = y.
Proof.
  split; [ | intros ->; apply value_eqb_refl].
  revert y. induction x as [ | n | a | l IH] using value_ind_nested;
    intros [ | n' | a' | l']; simpl; try discriminate; try reflexivity.
  - intros E. apply Z.eqb_eq in E. by subst.
  - intros E. apply Nat.eqb_eq in E. by subst.
  - intros E. f_equal. revert l' E.
    induction IH as [ | x l Hx _ IHl]; intros [ | y l']; try discriminate;
      [reflexivity | ].
    intros E. apply andb_true_iff in E as [E1 E2].
    f_equal; [by apply Hx | by apply IHl].
Qed.

(** Membership in a Python list is membership of an equal value. *)
Lemma py_in_spec (x : pyobj) (l : list value) :
  py_in x l = true ↔ ∃ v, v ∈ l ∧ x = PVal v.
Proof.
  unfold py_in. rewrite existsb_exists. split.
  - intros (v & Hin & E). exists v. split; [by apply list_elem_of_In | ].
    destruct x as [s | w]; simpl in E; [discriminate | ].
    apply value_eqb_eq in E. by subst.
  - intros (v & Hin & ->). exists v. split; [by apply list_elem_of_In | ].
    simpl. apply value_eqb_refl.
Qed.

Lemma py_in_string (s : string) (l : list value) : py_in (PStr s) l = false.
Proof. unfold py_in. induction l; simpl; auto. Qed.

Lemma append_cons (c : ascii) (s t : string) :
  (String c s ++ t)%string = String c (s ++ t)%string.
Proof. reflexivity. Qed.

Lemma append_nil (t : string) : (EmptyString ++ t)%string = t.
Proof. reflexivity. Qed.

Lemma prefix_spec (s t : string) :
  String.prefix s t = true ↔ ∃ post : string, t = (s ++ post)%string.
Proof.
  revert t. induction s as [ | c s IH]; intros t.
  - split; [intros _; by exists t | intros _; by destruct t].
  - destruct t as [ | d t]; simpl.
    + split; [discriminate | intros [post E]; discriminate].
    + destruct (Ascii.ascii_dec c d) as [-> | Hne].
      * rewrite IH. split; intros [post E]; exists post;
          rewrite append_cons in *; congruence.
      * split; [discriminate | ].
        intros [post E]. rewrite append_cons in E. congruence.
Qed.

Lemma str_in_spec (s t : string) : str_in s t = true ↔ substring_of s t.
Proof.
  unfold substring_of. induction t as [ | d t IH]; cbn [str_in].
  - rewrite orb_false_r, prefix_spec. split.
    + intros [post E]. by exists EmptyString, post.
    + intros (pre & post & E). destruct pre as [ | c pre].
      * rewrite append_nil in E. by exists post.
      * rewrite append_cons in E. discriminate.
  - rewrite orb_true_iff, prefix_spec, IH. split.
    + intros [[post E] | (pre & post & E)].
      * by exists EmptyString, post.
      * exists (String d pre), post. rewrite append_cons. by rewrite E.
    + intros (pre & post & E). destruct pre as [ | c pre].
      * left. rewrite append_nil in E. by exists post.
      * right. rewrite append_cons in E. exists pre, post. congruence.
Qed.

(** ** Reading the store *)

Section Reading.
Context `{Externals}.

Lemma getattr_eq (v : value) (k : attr) (st : state) :
  getattr v k st =
  match attr_of st v k with
  | Some x => (Ok x, st)
  | None => (Raise AttributeError, st)
  end.
Proof.
  unfold getattr, attr_of, obj_of. destruct v; try reflexivity.
  destruct (heap st !! a) as [o | ]; [ | reflexivity].
  by destruct (obj_attr o k).
Qed.

Lemma hasattr_eq (v : value) (k : attr) (st : state) :
  hasattr v k st =
  (Ok match attr_of st v k with Some _ => true | None => false end, st).
Proof.
  unfold hasattr, attr_of, obj_of. destruct v; try reflexivity.
  by destruct (heap st !! a).
Qed.

Lemma get_assembly_eq (self : addr) (s : assembly) (st : state) :
  assemblies st !! self = Some s → get_assembly self st = (Ok s, st).
Proof. intros E. unfold get_assembly. by rewrite E. Qed.

(** The search of [unpack] stops at the first entry whose name holds the
    string, provided the entries before it have a name that does not. *)
Lemma unpack_str_first (str : string) (l : list value) (st : state)
    (k : nat) (m : value) (t : string) :
  l !! k = Some m →
  named st m t →
  substring_of str t →
  (∀ j v, (j < k)%nat → l !! j = Some v →
          ∃ t', named st v t' ∧ ¬ substring_of str t') →
  unpack_str str l st = (Ok m, st).
Proof.
  revert k. induction l as [ | x l IH]; intros k Hk Hm Hsub Hbefore.
  - by rewrite lookup_nil in Hk.
  - cbn [unpack_str]. unfold bind. rewrite getattr_eq.
    destruct k as [ | k]; simpl in Hk.
    + injection Hk as ->. rewrite Hm. simpl.
      apply str_in_spec in Hsub. by rewrite Hsub.
    + destruct (Hbefore 0%nat x) as (t' & Hx & Hno); [lia | reflexivity | ].
      rewrite Hx. simpl.
      destruct (str_in str t') eqn:E; [by apply str_in_spec in E | ].
      apply (IH k); [done | done | done | ].
      intros j v Hj Hv. apply (Hbefore (S j) v); [lia | exact Hv].
Qed.



End Reading.

(** ** Membership and lookup *)

(** X18.  Where the lookups work: [__contains__] answers true exactly when
    a stored entry equals the given object, and [unpack] of a string
    returns the first stored actor whose name contains the string,
    provided every entry stored before it has a string for a name. *)
Theorem contains_by_equality_unpack_by_substring `{Externals}
    (st : state) (self : addr) (s : assembly) :
  assemblies st !! self = Some s →
  (∀ x : pyobj, ∃ b : bool,
      __contains__ self x st = (Ok b, st) ∧
      (b = true ↔ ∃ v, v ∈ actors s ∧ x = PVal v)) ∧
  (∀ (str : string) (k : nat) (m : value) (t : string),
      actors s !! k = Some m →
      named st m t →
      substring_of str t →
      (∀ j v, (j < k)%nat → actors s !! j = Some v →
              ∃ t', named st v t' ∧ ¬ substring_of str t') →
      unpack self (PStr str) st = (Ok m, st)).
Proof.
  intros Hself. split.
  - intros x. exists (py_in x (actors s)). split.
    + unfold __contains__, bind. by rewrite (get_assembly_eq _ _ _ Hself).
    + apply py_in_spec.
  - intros str k m t Hk Hm Hsub Hbefore. unfold unpack, bind.
    rewrite (get_assembly_eq _ _ _ Hself).
    by apply (unpack_str_first str (actors s) st k m t).
Qed.


Section LookupExamples.
#[local] Existing Instance sample_externals.

Example sample_grouped_built :
  Assembly [VList [VRef 0; VRef 1; VRef 2]] sample_state
  = (Ok 0%nat, sample_grouped).
Proof. reflexivity. Qed.

Example sample_with_none_built :
  Assembly [VList [VNone; VRef 0]] sample_state = (Ok 0%nat, sample_with_none).
Proof. reflexivity. Qed.

Example sample_with_bare_built :
  Assembly [VList [VRef 4; VRef 0]] sample_state = (Ok 0%nat, sample_with_bare).
Proof. reflexivity. Qed.

(** Equality against substring: the mesh "beta" is found by the string
    "et", and is in the group as the object it is. *)
Lemma contains_by_equality_unpack_by_substring_witness :
  assemblies sample_grouped !! 0%nat = Some sample_group ∧
  (∃ b, __contains__ 0%nat (PVal (VRef 1)) sample_grouped
        = (Ok b, sample_grouped) ∧ b = true) ∧
  unpack 0%nat (PStr "et") sample_grouped = (Ok (VRef 1), sample_grouped).
Proof.
  assert (Hself : assemblies sample_grouped !! 0%nat = Some sample_group)
    by reflexivity.
  destruct (contains_by_equality_unpack_by_substring
              sample_grouped 0%nat sample_group Hself) as (Hc & Hu).
  split; [exact Hself | split].
  - destruct (Hc (PVal (VRef 1))) as (b & E & Hb). exists b.
    split; [exact E | ]. apply Hb. exists (VRef 1).
    split; [ | reflexivity]. apply elem_of_cons. right. by left.
  - apply (Hu "et" 1%nat (VRef 1) "beta").
    + reflexivity.
    + reflexivity.
    + exists "b", "a". reflexivity.
    + intros j v Hj Hv. assert (j = 0%nat) as -> by lia.
      injection Hv as <-. exists "alpha". split; [reflexivity | ].
      intros Hsub. apply str_in_spec in Hsub. discriminate.
Defined.

(** C5.  The code at the failing input: in the assembly of [None] and the
    mesh "alpha", [__contains__] is by equality (the mesh is in it, the
    string "alpha" is not), that mesh is the first stored actor whose name
    contains "al", and [unpack("al")] raises [AttributeError] on the
    [None] before it instead of returning it. *)
Lemma unpack_raises_before_first_match :
  assemblies sample_with_none !! 0%nat = Some sample_group_none ∧
  actors sample_group_none = [VNone; VRef 0] ∧
  __contains__ 0%nat (PVal (VRef 0)) sample_with_none
  = (Ok true, sample_with_none) ∧
  __contains__ 0%nat (PStr "alpha") sample_with_none
  = (Ok false, sample_with_none) ∧
  attr_of sample_with_none VNone attr_name = None ∧
  named sample_with_none (VRef 0) "alpha" ∧
  substring_of "al" "alpha" ∧
  unpack 0%nat (PStr "al") sample_with_none
  = (Raise AttributeError, sample_with_none) ∧
  ¬ (∃ st', unpack 0%nat (PStr "al") sample_with_none = (Ok (VRef 0), st')).
Proof.
  repeat split.
  - exists "", "pha". reflexivity.
  - intros [st' E]. discriminate E.
Qed.



End LookupExamples.

(** ** Writing the store *)

Section Writing.
Context `{Externals}.
Open Scope nat_scope.

Lemma insert_snoc {A} (l : list A) (x y : A) :
  <[length l := x]> (l ++ [y]) = l ++ [x].
Proof.
  replace (length l) with (length l + 0) at 1 by lia.
  by rewrite insert_app_r.
Qed.

Lemma lookup_snoc {A} (l : list A) (x : A) : (l ++ [x]) !! length l = Some x.
Proof. by rewrite list_lookup_middle. Qed.

Lemma update_eq (self : addr) (f : assembly → assembly) (s : assembly)
    (st : state) :
  assemblies st !! self = Some s →
  update self f st
  = (Ok tt, set_assemblies st (<[self := f s]> (assemblies st))).
Proof.
  intros E. unfold update, bind. by rewrite (get_assembly_eq _ _ _ E).
Qed.

Lemma lookup_updated (self : addr) (s s' : assembly) (st : state) :
  assemblies st !! self = Some s →
  assemblies (set_assemblies st (<[self := s']> (assemblies st))) !! self
  = Some s'.
Proof.
  intros E. simpl. apply list_lookup_insert_eq. by eapply lookup_lt_Some.
Qed.

Lemma set_heap_twice (st : state) (h1 h2 : list object) :
  set_heap (set_heap st h1) h2 = set_heap st h2.
Proof. reflexivity. Qed.

Lemma attr_of_set_assemblies (st : state) (l : list assembly) (v : value)
    (k : attr) :
  attr_of (set_assemblies st l) v k = attr_of st v k.
Proof. reflexivity. Qed.

Lemma AddPart_eq (self a : addr) (s : assembly) (st : state) :
  assemblies st !! self = Some s →
  AddPart self (VRef a) st
  = (Ok tt,
     set_assemblies st
       (<[self := set_parts s (add_part (parts s) a)]> (assemblies st))).
Proof. intros E. unfold AddPart. by rewrite (update_eq _ _ _ _ E). Qed.

Lemma AddPart_refused (self : addr) (v : value) (st : state) :
  (∀ a, v ≠ VRef a) → v ≠ VNone → AddPart self v st = (Raise TypeError, st).
Proof.
  intros Hv Hn. destruct v as [ | n | a | l]; try reflexivity.
  - by destruct Hn.
  - by destruct (Hv a).
Qed.

Lemma AddPart_None (self : addr) (st : state) :
  AddPart self VNone st = (Raise InterpreterCrash, st).
Proof. reflexivity. Qed.

Lemma truthy_ref_or_not (v : value) :
  (truthy v = true → ∃ a, v = VRef a) ∨
  (truthy v = true ∧ ∀ a, v ≠ VRef a).
Proof.
  destruct (truthy v) eqn:E.
  - destruct v as [ | n | a | l].
    + discriminate.
    + right. by split.
    + left. intros _. by exists a.
    + right. by split.
  - left. discriminate.
Qed.

(** The registration loop of the constructor: it ends with every object
    of the sequence registered, or it raises because an entry that counts
    as true is no renderable. *)
Lemma add_truthy_cases (self : addr) (l : list value) (s : assembly)
    (st : state) :
  assemblies st !! self = Some s →
  (renderables l ∧
   add_truthy self l st
   = (Ok tt,
      set_assemblies st
        (<[self := set_parts s (registered l (parts s))]> (assemblies st))))
  ∨ (¬ renderables l ∧ ∃ st', add_truthy self l st = (Raise TypeError, st')).
Proof.
  revert s st. induction l as [ | v l IH]; intros s st Hself.
  - left. split; [constructor | ]. cbn [add_truthy registered]. unfold ret.
    f_equal. destruct st as [h a lg]. unfold set_assemblies. simpl in *.
    f_equal. symmetry. apply list_insert_id. by destruct s.
  - cbn [add_truthy]. unfold bind.
    destruct (truthy_ref_or_not v) as [Hv | [Ht Hv]].
    + destruct (truthy v) eqn:Et.
      * destruct Hv as [a ->]; [done | ].
        rewrite (AddPart_eq _ _ _ _ Hself).
        destruct (IH (set_parts s (add_part (parts s) a))
                    (set_assemblies st
                       (<[self := set_parts s (add_part (parts s) a)]>
                          (assemblies st))))
          as [[Hl E] | [Hl [st' E]]].
        { by apply lookup_updated with s. }
        -- left. split; [constructor; [by eauto | exact Hl] | ].
           rewrite E. simpl. by rewrite list_insert_insert_eq.
        -- right. split; [ | by exists st'].
           intros Hall. by inversion Hall.
      * unfold ret at 1.
        destruct (IH s st Hself) as [[Hl E] | [Hl [st' E]]].
        -- left. split; [constructor; [intros ?; congruence | exact Hl] | ].
           rewrite E. by destruct v.
        -- right. split; [ | by exists st'].
           intros Hall. by inversion Hall.
    + right. rewrite Ht, (AddPart_refused _ _ _ Hv); [ | by intros ->].
      split; [ | by exists st].
      intros Hall. inversion Hall as [ | ? ? Hx _]; subst.
      destruct (Hx Ht) as [a ->]. by destruct (Hv a).
Qed.

Lemma elem_of_add_part (ps : list addr) (a b : addr) :
  b ∈ add_part ps a ↔ b ∈ ps ∨ b = a.
Proof.
  unfold add_part. case_bool_decide as Hin.
  - split; [by left | ]. intros [Hb | ->]; done.
  - rewrite elem_of_app, list_elem_of_singleton. tauto.
Qed.

(** The registered parts are the parts already there and the objects of
    the sequence. *)
Lemma elem_of_registered (l : list value) (ps : list addr) (b : addr) :
  b ∈ registered l ps ↔ b ∈ ps ∨ VRef b ∈ l.
Proof.
  revert ps. induction l as [ | v l IH]; intros ps; cbn [registered].
  - rewrite elem_of_nil. tauto.
  - rewrite elem_of_cons.
    destruct v as [ | n | a | k]; rewrite IH; try rewrite elem_of_add_part;
      split; intros Hb; try tauto;
      try (destruct Hb as [? | [? | ?]]; (discriminate || tauto)).
    + destruct Hb as [[? | ->] | ?]; tauto.
    + destruct Hb as [? | [E | ?]]; [tauto | | tauto].
      injection E as ->. tauto.
Qed.

End Writing.

(** ** The constructor *)

Section Constructor.
Context `{Externals}.
Open Scope nat_scope.

Lemma init_sequence_eq (args : list value) :
  match args with
  | [m] => match m with VList l => ret l | _ => raise TypeError end
  | _ => ret (flatten args)
  end
  = match stored_sequence args with
    | Some l => ret l
    | None => raise TypeError
    end.
Proof. destruct args as [ | m [ | m' args]]; try reflexivity; by destruct m. Qed.

(** The two assignments of the anchors. *)
Lemma init_anchors_eq (self : addr) (l : list value) (s : assembly)
    (st : state) :
  assemblies st !! self = Some s →
  init_anchors self l st
  = match l with
    | m0 :: _ =>
        match attr_of st m0 attr_top, attr_of st m0 attr_base with
        | Some t, Some b =>
            (Ok tt,
             set_assemblies st
               (<[self := set_top (set_base s b) t]> (assemblies st)))
        | Some _, None => (Raise AttributeError, st)
        | None, _ =>
            (Ok tt,
             set_assemblies st
               (<[self := set_top (set_base s (PVal VNone)) (PVal VNone)]>
                  (assemblies st)))
        end
    | [] =>
        (Ok tt,
         set_assemblies st
           (<[self := set_top (set_base s (PVal VNone)) (PVal VNone)]>
              (assemblies st)))
    end.
Proof.
  intros Hself.
  assert (Hnone :
    (update self (λ s, set_base s (PVal VNone)) ;;;
     update self (λ s, set_top s (PVal VNone))) st
    = (Ok tt,
       set_assemblies st
         (<[self := set_top (set_base s (PVal VNone)) (PVal VNone)]>
            (assemblies st)))).
  { unfold bind. rewrite (update_eq _ _ _ _ Hself).
    erewrite update_eq; [ | by eapply lookup_updated].
    simpl. by rewrite list_insert_insert_eq. }
  unfold init_anchors. destruct l as [ | m0 rest]; [exact Hnone | ].
  unfold bind at 1. rewrite hasattr_eq.
  destruct (attr_of st m0 attr_top) as [t | ] eqn:Et; [ | exact Hnone].
  unfold bind at 1. rewrite getattr_eq.
  destruct (attr_of st m0 attr_base) as [b | ] eqn:Eb; [ | reflexivity].
  unfold bind. rewrite (update_eq _ _ _ _ Hself), getattr_eq.
  rewrite attr_of_set_assemblies, Et.
  erewrite update_eq; [ | by eapply lookup_updated].
  simpl. by rewrite list_insert_insert_eq.
Qed.

Lemma init_anchors_cases (self : addr) (l : list value) (s : assembly)
    (st : state) :
  assemblies st !! self = Some s →
  (anchored st l ∧
   init_anchors self l st
   = (Ok tt,
      set_assemblies st
        (<[self := set_top (set_base s (fst (anchors_of st l)))
                     (snd (anchors_of st l))]> (assemblies st))))
  ∨ (¬ anchored st l ∧ init_anchors self l st = (Raise AttributeError, st)).
Proof.
  intros Hself. rewrite (init_anchors_eq _ _ _ _ Hself).
  unfold anchored, anchors_of. destruct l as [ | m0 rest].
  - left. split; [intros m0 Hm0; discriminate | reflexivity].
  - destruct (attr_of st m0 attr_top) as [t | ] eqn:Et.
    + destruct (attr_of st m0 attr_base) as [b | ] eqn:Eb.
      * left. split; [ | reflexivity].
        intros m Hm _. injection Hm as <-. by rewrite Eb.
      * right. split; [ | reflexivity].
        intros Ha. destruct (Ha m0) as [b Eb']; [reflexivity | by eexists | ].
        congruence.
    + left. split; [ | reflexivity].
      intros m Hm [t Ht]. injection Hm as <-. congruence.
Qed.

(** [__init__] on an instance: what it stores, and when it raises. *)
Lemma init_cases (self : addr) (args : list value) (s0 : assembly)
    (st : state) :
  assemblies st !! self = Some s0 →
  match stored_sequence args with
  | None => __init__ self args st = (Raise TypeError, st)
  | Some l =>
      ∃ r st', __init__ self args st = (r, st') ∧
        ((renderables l ∧ anchored st l ∧ r = Ok tt ∧
          st' = set_assemblies st (<[self := built st s0 l]> (assemblies st)))
         ∨ ((¬ renderables l ∨ ¬ anchored st l) ∧ ∃ e, r = Raise e))
  end.
Proof.
  intros Hself. unfold __init__. rewrite init_sequence_eq.
  destruct (stored_sequence args) as [l | ]; [ | reflexivity].
  unfold bind at 1. unfold ret at 1. unfold bind at 1.
  rewrite (update_eq _ _ _ _ Hself).
  pose proof (lookup_updated self s0 (set_actors s0 l) st Hself) as H1.
  unfold bind at 1.
  destruct (init_anchors_cases self l (set_actors s0 l) _ H1)
    as [[Ha E] | [Ha E]]; rewrite E.
  - simpl. rewrite list_insert_insert_eq.
    match goal with
    | |- context [add_truthy self l ?st1] =>
        destruct (add_truthy_cases self l
                    (set_top (set_base (set_actors s0 l)
                                (fst (anchors_of st l)))
                       (snd (anchors_of st l))) st1)
          as [[Hr E'] | [Hr [st' E']]]; [ | rewrite E' ..]
    end.
    { simpl. apply list_lookup_insert_eq. by eapply lookup_lt_Some. }
    + eexists _, _. split; [reflexivity | ]. left.
      split; [exact Hr | split; [exact Ha | split; [reflexivity | ]]].
      simpl. rewrite list_insert_insert_eq. reflexivity.
    + eexists _, _. split; [reflexivity | ]. right.
      split; [by left | by eexists].
  - eexists _, _. split; [reflexivity | ]. right.
    split; [by right | by eexists].
Qed.

(** The call of the class. *)
Lemma Assembly_cases (args : list value) (st : state) :
  ∃ r st', Assembly args st = (r, st') ∧
    match stored_sequence args with
    | None => r = Raise TypeError
    | Some l =>
        (renderables l ∧ anchored st l ∧
         r = Ok (length (assemblies st)) ∧
         st' = set_assemblies st (assemblies st ++ [built st blank l]))
        ∨ ((¬ renderables l ∨ ¬ anchored st l) ∧ ∃ e, r = Raise e)
    end.
Proof.
  unfold Assembly, bind at 1. unfold new_assembly at 1. unfold bind.
  pose proof (init_cases (length (assemblies st)) args blank
                (set_assemblies st (assemblies st ++ [blank]))
                (lookup_snoc _ _)) as Hinit.
  destruct (stored_sequence args) as [l | ].
  - destruct Hinit as (r & st' & E & [(Hr & Ha & -> & ->) | [Hno [e ->]]]);
      rewrite E.
    + eexists _, _. split; [reflexivity | ]. left.
      split; [exact Hr | split; [exact Ha | split; [reflexivity | ]]].
      simpl. by rewrite insert_snoc.
    + eexists _, _. split; [reflexivity | ]. right.
      split; [exact Hno | by eexists].
  - rewrite Hinit. by eexists _, _.
Qed.

Lemma Assembly_ok (args l : list value) (st : state) :
  stored_sequence args = Some l →
  renderables l →
  anchored st l →
  Assembly args st
  = (Ok (length (assemblies st)),
     set_assemblies st (assemblies st ++ [built st blank l])).
Proof.
  intros Hs Hr Ha. destruct (Assembly_cases args st) as (r & st' & E & Hc).
  rewrite Hs in Hc.
  destruct Hc as [(_ & _ & -> & ->) | [[Hno | Hno] _]]; done.
Qed.

Lemma Assembly_inv (args : list value) (st st' : state) (self : addr) :
  Assembly args st = (Ok self, st') →
  ∃ l, stored_sequence args = Some l ∧ renderables l ∧ anchored st l ∧
       self = length (assemblies st) ∧
       st' = set_assemblies st (assemblies st ++ [built st blank l]).
Proof.
  intros E. destruct (Assembly_cases args st) as (r & st'' & E' & Hc).
  rewrite E' in E. injection E as -> ->.
  destruct (stored_sequence args) as [l | ]; [ | discriminate].
  destruct Hc as [(Hr & Ha & Hs & ->) | [_ [e Hs]]]; [ | discriminate].
  injection Hs as ->. by exists l.
Qed.

End Constructor.

(** ** Flattening *)

Lemma flatten_cons (x : value) (l : list value) :
  flatten (x :: l) = flatten_value x ++ flatten l.
Proof. reflexivity. Qed.

Lemma flatten_value_flat (v : value) : flat (flatten_value v).
Proof.
  unfold flat. induction v as [ | n | a | l IH] using value_ind_nested;
    try (constructor; [discriminate | constructor]).
  change (flatten_value (VList l)) with (flatten l).
  induction IH as [ | x l Hx _ IHl]; [constructor | ].
  rewrite flatten_cons. apply Forall_app. by split.
Qed.

(** The flattened arguments hold no list. *)
Lemma flatten_flat (l : list value) : flat (flatten l).
Proof. apply (flatten_value_flat (VList l)). Qed.

(** Arguments that hold no list are kept as they are, in their order. *)
Lemma flatten_of_flat (l : list value) : flat l → flatten l = l.
Proof.
  induction 1 as [ | x l Hx _ IHl]; [reflexivity | ].
  rewrite flatten_cons, IHl.
  destruct x as [ | n | a | k]; try reflexivity. by destruct (Hx k).
Qed.

Lemma stored_sequence_several (args : list value) :
  length args ≠ 1%nat → stored_sequence args = Some (flatten args).
Proof.
  destruct args as [ | m [ | m' args]]; simpl; try done.
  intros _. by destruct m.
Qed.

(** ** Construction *)

Section Construction.
Context `{Externals}.
Open Scope nat_scope.

Lemma built_lookup (st : state) (l : list value) :
  assemblies (set_assemblies st (assemblies st ++ [built st blank l]))
  !! length (assemblies st) = Some (built st blank l).
Proof. apply lookup_snoc. Qed.

End Construction.

(** C3 (as amended).  Called with no argument or with several, the
    constructor stores the flattened arguments, a sequence without nested
    lists (the arguments themselves, in their order, when none is a list);
    called with one argument, it stores that sequence as it is given. *)
Theorem Assembly_flattens_several_arguments `{Externals} (st : state) :
  (∀ args : list value,
      length args ≠ 1%nat →
      renderables (flatten args) →
      anchored st (flatten args) →
      ∃ self st' s,
        Assembly args st = (Ok self, st') ∧
        assemblies st' !! self = Some s ∧
        actors s = flatten args ∧ flat (actors s) ∧
        (flat args → actors s = args)) ∧
  (∀ l : list value,
      renderables l →
      anchored st l →
      ∃ self st' s,
        Assembly [VList l] st = (Ok self, st') ∧
        assemblies st' !! self = Some s ∧
        actors s = l).
Proof.
  split.
  - intros args Hlen Hr Ha.
    eexists _, _, _. split; [ | split; [apply built_lookup | ]].
    + apply Assembly_ok; [by apply stored_sequence_several | done | done].
    + split; [reflexivity | split; [apply flatten_flat | ]].
      apply flatten_of_flat.
  - intros l Hr Ha.
    eexists _, _, _. split; [ | split; [apply built_lookup | reflexivity]].
    by apply Assembly_ok.
Qed.

(** C4 (as amended).  The guard of the anchors tests [top] alone: a first
    element with a [top] and a [base] gives both to the assembly, a first
    element without a [top] leaves both unset, and the construction raises
    when the first element has a [top] and no [base]. *)
Theorem Assembly_anchors `{Externals} (st : state)
    (args : list value) (m0 : value) (rest : list value) :
  stored_sequence args = Some (m0 :: rest) →
  renderables (m0 :: rest) →
  (∀ b t : pyobj,
      attr_of st m0 attr_base = Some b →
      attr_of st m0 attr_top = Some t →
      ∃ self st' s,
        Assembly args st = (Ok self, st') ∧
        assemblies st' !! self = Some s ∧
        a_base s = b ∧ a_top s = t) ∧
  (attr_of st m0 attr_top = None →
   ∃ self st' s,
     Assembly args st = (Ok self, st') ∧
     assemblies st' !! self = Some s ∧
     a_base s = PVal VNone ∧ a_top s = PVal VNone) ∧
  (is_Some (attr_of st m0 attr_top) →
   attr_of st m0 attr_base = None →
   ∃ e st', Assembly args st = (Raise e, st')).
Proof.
  intros Hs Hr. split; [ | split].
  - intros b t Hb Ht.
    eexists _, _, _. split; [ | split; [apply built_lookup | ]].
    + apply (Assembly_ok args (m0 :: rest)); [done | done | ].
      intros m Hm _. injection Hm as <-. by rewrite Hb.
    + simpl. by rewrite Ht, Hb.
  - intros Ht.
    eexists _, _, _. split; [ | split; [apply built_lookup | ]].
    + apply (Assembly_ok args (m0 :: rest)); [done | done | ].
      intros m Hm [t Ht']. injection Hm as <-. congruence.
    + simpl. by rewrite Ht.
  - intros Ht Hb. destruct (Assembly_cases args st) as (r & st' & E & Hc).
    rewrite Hs in Hc. destruct Hc as [(_ & Ha & _) | [_ [e ->]]].
    + destruct (Ha m0) as [b Hb']; [reflexivity | exact Ht | congruence].
    + by exists e, st'.
Qed.

(** C10.  In an assembly that was constructed, the stored sequence is the
    sequence of the call with its null and false entries, which [unpack()]
    returns and the length counts; the parts of the scene node are the
    objects of the sequence, and no null or false entry is among them. *)
Theorem falsy_entries_stored_not_registered `{Externals}
    (st st' : state) (args : list value) (self : addr) :
  Assembly args st = (Ok self, st') →
  ∃ l s,
    stored_sequence args = Some l ∧
    assemblies st' !! self = Some s ∧
    actors s = l ∧
    length (actors s) = length l ∧
    unpack self (PVal VNone) st' = (Ok (VList l), st') ∧
    (∀ a : addr, a ∈ parts s ↔ VRef a ∈ l) ∧
    (∀ (i : nat) (v : value),
        l !! i = Some v → truthy v = false →
        actors s !! i = Some v ∧ ∀ a, a ∈ parts s → VRef a ≠ v).
Proof.
  intros E. apply Assembly_inv in E as (l & Hs & Hr & Ha & -> & ->).
  exists l, (built st blank l).
  split; [exact Hs | split; [apply built_lookup | ]].
  split; [reflexivity | split; [reflexivity | split; [ | split]]].
  - unfold unpack, bind.
    by rewrite (get_assembly_eq _ _ _ (built_lookup st l)).
  - intros a. simpl. rewrite elem_of_registered, elem_of_nil. tauto.
  - intros i v Hi Hv. split; [exact Hi | ].
    intros a _ <-. discriminate.
Qed.

Section ConstructionExamples.
#[local] Existing Instance sample_externals.

(** [Assembly([alpha, beta], gamma)] stores the three meshes. *)
Lemma Assembly_flattens_several_arguments_witness :
  ∃ self st' s,
    Assembly [VList [VRef 0; VRef 1]; VRef 2] sample_state = (Ok self, st') ∧
    assemblies st' !! self = Some s ∧
    actors s = [VRef 0; VRef 1; VRef 2] ∧ flat (actors s).
Proof.
  destruct (Assembly_flattens_several_arguments sample_state) as [Hseveral _].
  destruct (Hseveral [VList [VRef 0; VRef 1]; VRef 2])
    as (self & st' & s & E & Hs & Ha & Hf & _);
    [ | | | by exists self, st', s].
  - simpl. lia.
  - repeat constructor; intros _; by eexists.
  - intros m Hm _. injection Hm as <-. by eexists.
Defined.

(** C3 fails as stated: [Assembly([[alpha, beta], gamma])], a single nested
    argument, is not flattened; its first entry is a list, which the scene
    node refuses, and no assembly holding the three meshes results. *)
Lemma Assembly_single_nested_counterexample :
  fst (Assembly [VList [VList [VRef 0; VRef 1]; VRef 2]] sample_state)
  = Raise TypeError ∧
  ¬ (∃ self st' s,
       Assembly [VList [VList [VRef 0; VRef 1]; VRef 2]] sample_state
       = (Ok self, st') ∧
       assemblies st' !! self = Some s ∧
       actors s = [VRef 0; VRef 1; VRef 2]).
Proof.
  split; [reflexivity | ].
  intros (self & st' & s & E & _). discriminate E.
Qed.

(** A single nested argument whose inner list is empty is stored with that
    empty list in it. *)
Example Assembly_single_nested_stored :
  ∃ st' s,
    Assembly [VList [VList []; VRef 2]] sample_state = (Ok 0%nat, st') ∧
    assemblies st' !! 0%nat = Some s ∧
    actors s = [VList []; VRef 2].
Proof.
  eexists _, _. split; [reflexivity | ]. vm_compute. by repeat split.
Qed.

(** The anchors of a mesh are taken; a bare actor leaves them unset. *)
Lemma Assembly_anchors_witness :
  stored_sequence [VList [VRef 0; VRef 4]] = Some [VRef 0; VRef 4] ∧
  renderables [VRef 0; VRef 4] ∧
  ∃ self st' s,
    Assembly [VList [VRef 0; VRef 4]] sample_state = (Ok self, st') ∧
    assemblies st' !! self = Some s ∧
    a_base s = PVal (VList [VInt 0; VInt 0; VInt 0]) ∧
    a_top s = PVal (VList [VInt 0; VInt 0; VInt 1]).
Proof.
  assert (Hr : renderables [VRef 0; VRef 4])
    by (repeat constructor; intros _; by eexists).
  split; [reflexivity | split; [exact Hr | ]].
  destruct (Assembly_anchors sample_state [VList [VRef 0; VRef 4]]
              (VRef 0) [VRef 4] eq_refl Hr) as (Hboth & _ & _).
  by apply Hboth.
Defined.

(** C4 fails as stated: the first element is a toolkit actor on which
    [top] alone was set; it does not expose both anchors, and the
    construction raises on reading its [base]. *)
Lemma Assembly_top_without_base_counterexample :
  renderables [VRef 5] ∧
  is_Some (attr_of sample_state (VRef 5) attr_top) ∧
  attr_of sample_state (VRef 5) attr_base = None ∧
  fst (Assembly [VList [VRef 5]] sample_state) = Raise AttributeError ∧
  ¬ (∃ self st' s,
       Assembly [VList [VRef 5]] sample_state = (Ok self, st') ∧
       assemblies st' !! self = Some s ∧
       a_base s = PVal VNone ∧ a_top s = PVal VNone).
Proof.
  split; [repeat constructor; intros _; by eexists | ].
  split; [by eexists | split; [reflexivity | split; [reflexivity | ]]].
  intros (self & st' & s & E & _). discriminate E.
Qed.

(** [Assembly([actor, None, alpha, 0])]: four stored entries, two parts. *)
Lemma falsy_entries_stored_not_registered_witness :
  ∃ st',
    Assembly [VList [VRef 4; VNone; VRef 0; VInt 0]] sample_state
    = (Ok 0%nat, st') ∧
    ∃ l s,
      stored_sequence [VList [VRef 4; VNone; VRef 0; VInt 0]] = Some l ∧
      assemblies st' !! 0%nat = Some s ∧
      actors s = l ∧
      length (actors s) = length l ∧
      unpack 0%nat (PVal VNone) st' = (Ok (VList l), st') ∧
      (∀ a : addr, a ∈ parts s ↔ VRef a ∈ l) ∧
      (∀ (i : nat) (v : value),
          l !! i = Some v → truthy v = false →
          actors s !! i = Some v ∧ ∀ a, a ∈ parts s → VRef a ≠ v).
Proof.
  eexists. split; [reflexivity | ].
  apply (falsy_entries_stored_not_registered sample_state _
           [VList [VRef 4; VNone; VRef 0; VInt 0]] 0%nat).
  reflexivity.
Defined.

Example falsy_entries_sample :
  ∃ st' s,
    Assembly [VList [VRef 4; VNone; VRef 0; VInt 0]] sample_state
    = (Ok 0%nat, st') ∧
    assemblies st' !! 0%nat = Some s ∧
    actors s = [VRef 4; VNone; VRef 0; VInt 0] ∧
    parts s = [4; 0]%nat.
Proof.
  eexists _, _. split; [reflexivity | ]. vm_compute. by repeat split.
Qed.

End ConstructionExamples.

(** ** Adding parts *)

Section Adding.
Context `{Externals}.
Open Scope nat_scope.

Lemma add_each_refs (self : addr) (addrs : list addr) (s : assembly)
    (st : state) :
  assemblies st !! self = Some s →
  add_each self (VRef <$> addrs) st
  = (Ok tt,
     set_assemblies st
       (<[self := set_parts s (registered (VRef <$> addrs) (parts s))]>
          (assemblies st))).
Proof.
  revert s st. induction addrs as [ | a addrs IH]; intros s st Hself.
  - cbn. unfold ret. f_equal. destruct st as [h l lg]. unfold set_assemblies.
    simpl in *. f_equal. symmetry. apply list_insert_id. by destruct s.
  - cbn [fmap list_fmap add_each registered]. unfold bind.
    rewrite (AddPart_eq _ _ _ _ Hself).
    erewrite IH; [ | by eapply lookup_updated].
    simpl. by rewrite list_insert_insert_eq.
Qed.

(** [__add__] on an object or on a list of objects. *)
Lemma add_eq (self : addr) (m : value) (s : assembly) (st : state) :
  assemblies st !! self = Some s →
  (∃ a, m = VRef a) ∨ (∃ addrs, m = VList (VRef <$> addrs)) →
  __add__ self m st
  = (Ok self,
     set_assemblies st
       (<[self := set_parts s (registered (added_items m) (parts s))]>
          (assemblies st))).
Proof.
  intros Hself [[a ->] | [addrs ->]]; unfold __add__, bind.
  - by rewrite (AddPart_eq _ _ _ _ Hself).
  - by rewrite (add_each_refs _ _ _ _ Hself).
Qed.

(** The search of [unpack] reads the objects only. *)
Lemma unpack_str_heap (str : string) (l : list value) (st st' : state) :
  heap st' = heap st →
  fst (unpack_str str l st') = fst (unpack_str str l st).
Proof.
  intros Hh. induction l as [ | m l IH]; [reflexivity | ].
  cbn [unpack_str]. unfold bind. rewrite !getattr_eq.
  replace (attr_of st' m attr_name) with (attr_of st m attr_name)
    by (unfold attr_of, obj_of; by rewrite Hh).
  destruct (attr_of st m attr_name) as [n | ]; [ | reflexivity].
  by destruct (str_in_obj str n) as [[ | ] | ].
Qed.

End Adding.

(** C9.  [__add__] of an object, or of a list of objects, returns the
    assembly it was called on, with these objects among the parts of the
    scene node and the stored sequence as it was: [__contains__] and
    [unpack] answer as before. *)
Theorem add_registers_and_keeps_actors `{Externals}
    (st : state) (self : addr) (s : assembly) (m : value) :
  assemblies st !! self = Some s →
  (∃ a, m = VRef a) ∨ (∃ addrs, m = VList (VRef <$> addrs)) →
  ∃ st' s',
    __add__ self m st = (Ok self, st') ∧
    assemblies st' !! self = Some s' ∧
    actors s' = actors s ∧
    heap st' = heap st ∧
    (∀ a : addr, a ∈ parts s' ↔ a ∈ parts s ∨ VRef a ∈ added_items m) ∧
    (∀ x : pyobj,
        fst (__contains__ self x st') = fst (__contains__ self x st)) ∧
    (∀ i : pyobj, fst (unpack self i st') = fst (unpack self i st)).
Proof.
  intros Hself Hm. eexists _, _.
  split; [by apply add_eq | ].
  split; [by eapply lookup_updated | ].
  split; [reflexivity | split; [reflexivity | split; [ | split]]].
  - intros a. simpl. apply elem_of_registered.
  - intros x. unfold __contains__, bind.
    erewrite get_assembly_eq; [ | by eapply lookup_updated].
    by rewrite (get_assembly_eq _ _ _ Hself).
  - intros i. unfold unpack, bind.
    erewrite get_assembly_eq; [ | by eapply lookup_updated].
    rewrite (get_assembly_eq _ _ _ Hself). cbn [actors set_parts].
    destruct i as [str | [ | k | a | l]]; try reflexivity.
    + by apply unpack_str_heap.
    + by destruct (py_index (actors s) k).
Qed.

Section AddingExamples.
#[local] Existing Instance sample_externals.

(** The mesh "delta" is added to the group of three: it becomes a part,
    and [__contains__] does not see it. *)
Lemma add_registers_and_keeps_actors_witness :
  assemblies sample_grouped !! 0%nat = Some sample_group ∧
  ∃ st' s',
    __add__ 0%nat (VRef 3) sample_grouped = (Ok 0%nat, st') ∧
    assemblies st' !! 0%nat = Some s' ∧
    actors s' = [VRef 0; VRef 1; VRef 2] ∧
    (3%nat ∈ parts s') ∧
    fst (__contains__ 0%nat (PVal (VRef 3)) st') = Ok false.
Proof.
  assert (Hself : assemblies sample_grouped !! 0%nat = Some sample_group)
    by reflexivity.
  split; [exact Hself | ].
  destruct (add_registers_and_keeps_actors
              sample_grouped 0%nat sample_group (VRef 3) Hself)
    as (st' & s' & E & Hs' & Ha & _ & Hp & Hc & _).
  { left. by eexists. }
  exists st', s'. split; [exact E | split; [exact Hs' | split; [exact Ha | ]]].
  split.
  - apply Hp. right. simpl. by left.
  - by rewrite Hc.
Defined.

End AddingExamples.

(** ** Cloning *)

Section Cloning.
Context `{Externals}.
Open Scope nat_scope.

Lemma obj_of_app (st : state) (v : value) (o : object) (new : list object) :
  obj_of st v = Some o → obj_of (set_heap st (heap st ++ new)) v = Some o.
Proof.
  destruct v as [ | n | a | l]; simpl; try discriminate.
  apply lookup_app_l_Some.
Qed.

Lemma obj_of_bound (st : state) (v : value) (o : object) :
  obj_of st v = Some o → ∃ a, v = VRef a ∧ a < length (heap st).
Proof.
  destruct v as [ | n | a | l]; simpl; try discriminate.
  intros E. exists a. split; [reflexivity | by eapply lookup_lt_Some].
Qed.

Lemma part_clone_eq (v : value) (o : object) (st : state) :
  obj_of st v = Some o →
  o_clone o = true →
  part_clone v st
  = (Ok (VRef (length (heap st))), set_heap st (heap st ++ [o])).
Proof.
  intros Ho Hc. destruct v as [ | n | a | l]; simpl in Ho; try discriminate.
  unfold part_clone. by rewrite Ho, Hc.
Qed.

(** The objects behind a sequence of cloneable parts. *)
Lemma cloneable_objects (st : state) (l : list value) :
  Forall (cloneable st) l →
  ∃ objs, Forall2 (λ v o, obj_of st v = Some o ∧ o_clone o = true) l objs.
Proof.
  induction 1 as [ | v l (o & Ho & Hc) _ [objs IH]].
  - exists []. constructor.
  - exists (o :: objs). by constructor.
Qed.

(** The loop of [clone]: one copy per part, at the next free addresses. *)
Lemma clone_each_eq (l : list value) (objs : list object)
    (newlist : list value) (st : state) :
  Forall2 (λ v o, obj_of st v = Some o ∧ o_clone o = true) l objs →
  clone_each l newlist st
  = (Ok (newlist ++ (VRef <$> seq (length (heap st)) (length l))),
     set_heap st (heap st ++ objs)).
Proof.
  intros Hall. revert newlist.
  remember st as st0 eqn:Est in Hall.
  assert (Hext : ∀ v o, obj_of st0 v = Some o → obj_of st v = Some o)
    by (by subst).
  clear Est. revert st Hext.
  induction Hall as [ | v o l objs [Ho Hc] _ IH]; intros st Hext newlist.
  - cbn. unfold ret. rewrite !app_nil_r. by destruct st.
  - cbn [clone_each]. unfold bind.
    rewrite (part_clone_eq v o st (Hext _ _ Ho) Hc).
    rewrite IH.
    + cbn [heap set_heap length seq fmap list_fmap]. rewrite length_app.
      cbn [length]. rewrite <- !app_assoc. cbn [app].
      by replace (length (heap st) + 1) with (S (length (heap st))) by lia.
    + intros v' o' Hv'. by apply obj_of_app, Hext.
Qed.

End Cloning.

(** C7.  [clone] of an assembly whose parts all support cloning returns a
    new assembly with as many parts in the same order, which are also the
    parts of its scene node; each part of the clone is an object that did
    not exist before, different from the part it copies and with the same
    content, and the source and its parts are as they were. *)
Theorem clone_parts_distinct_and_equal `{Externals}
    (st : state) (self : addr) (s : assembly) :
  assemblies st !! self = Some s →
  Forall (cloneable st) (actors s) →
  anchored st (actors s) →
  ∃ self' st' s',
    clone self st = (Ok self', st') ∧
    self' ≠ self ∧
    assemblies st !! self' = None ∧
    assemblies st' !! self' = Some s' ∧
    assemblies st' !! self = Some s ∧
    length (actors s') = length (actors s) ∧
    (∀ a : addr, a ∈ parts s' ↔ VRef a ∈ actors s') ∧
    (∀ (i : nat) (v : value),
        actors s !! i = Some v →
        ∃ v', actors s' !! i = Some v' ∧
              v' ≠ v ∧
              obj_of st v' = None ∧
              is_Some (obj_of st v) ∧
              obj_of st' v' = obj_of st v ∧
              obj_of st' v = obj_of st v).
Proof.
  intros Hself Hall Hanch.
  destruct (cloneable_objects st (actors s) Hall) as [objs Hobjs].
  pose proof (Forall2_length _ _ _ Hobjs) as Hlen.
  set (newlist := VRef <$> seq (length (heap st)) (length (actors s))).
  set (st1 := set_heap st (heap st ++ objs)).
  assert (Eclone : clone self st
                   = (Ok (length (assemblies st)),
                      set_assemblies st1
                        (assemblies st1 ++ [built st1 blank newlist]))).
  { unfold clone, bind. rewrite (get_assembly_eq _ _ _ Hself).
    rewrite (clone_each_eq _ _ _ _ Hobjs). cbn [app].
    apply (Assembly_ok [VList newlist] newlist st1); [reflexivity | | ].
    - unfold renderables, newlist. apply Forall_fmap, Forall_forall.
      intros a _ _. by eexists.
    - intros m0 Hm0. unfold newlist in Hm0.
      destruct Hobjs as [ | v o l objs' [Ho Hc] Hrest]; [discriminate | ].
      cbn in Hm0. injection Hm0 as <-.
      assert (Hnew : ∀ k, attr_of st1 (VRef (length (heap st))) k
                          = attr_of st v k).
      { intros k. unfold attr_of. rewrite Ho. unfold st1. cbn.
        by rewrite list_lookup_middle. }
      rewrite !Hnew. by apply Hanch. }
  eexists (length (assemblies st)), _, (built st1 blank newlist).
  split; [exact Eclone | ].
  pose proof (lookup_lt_Some _ _ _ Hself) as Hlt.
  split; [lia | ].
  split; [by apply lookup_ge_None | ].
  split; [apply lookup_snoc | ].
  split; [cbn; by apply lookup_app_l_Some | ].
  split; [cbn; unfold newlist; by rewrite length_fmap, length_seq | ].
  split.
  { intros a. cbn. rewrite elem_of_registered, elem_of_nil. tauto. }
  intros i v Hv.
  destruct (Forall2_lookup_l _ _ _ _ _ Hobjs Hv) as (o & Ho' & Ho & Hc).
  destruct (obj_of_bound _ _ _ Ho) as (a & -> & Ha).
  exists (VRef (length (heap st) + i)%nat).
  pose proof (lookup_lt_Some _ _ _ Hv) as Hi.
  split.
  { cbn. unfold newlist. rewrite list_lookup_fmap, lookup_seq_lt; done. }
  split; [intros E; injection E as E; lia | ].
  split; [cbn; apply lookup_ge_None; lia | ].
  split; [by eexists | ].
  split.
  - cbn. rewrite lookup_app_r by lia.
    replace (length (heap st) + i - length (heap st))%nat with i by lia.
    cbn in Ho. by rewrite Ho', Ho.
  - cbn. cbn in Ho. rewrite Ho. by apply lookup_app_l_Some.
Qed.

Section CloningExamples.
#[local] Existing Instance sample_externals.

Lemma clone_parts_distinct_and_equal_witness :
  assemblies sample_grouped !! 0%nat = Some sample_group ∧
  Forall (cloneable sample_grouped) (actors sample_group) ∧
  anchored sample_grouped (actors sample_group) ∧
  ∃ self' st' s',
    clone 0%nat sample_grouped = (Ok self', st') ∧
    self' ≠ 0%nat ∧
    assemblies st' !! self' = Some s' ∧
    length (actors s') = 3%nat.
Proof.
  assert (Hself : assemblies sample_grouped !! 0%nat = Some sample_group)
    by reflexivity.
  assert (Hall : Forall (cloneable sample_grouped) (actors sample_group))
    by (repeat constructor; by eexists).
  assert (Hanch : anchored sample_grouped (actors sample_group))
    by (intros m Hm _; injection Hm as <-; by eexists).
  split; [exact Hself | split; [exact Hall | split; [exact Hanch | ]]].
  destruct (clone_parts_distinct_and_equal
              sample_grouped 0%nat sample_group Hself Hall Hanch)
    as (self' & st' & s' & E & Hne & _ & Hs' & _ & Hl & _ & _).
  by exists self', st', s'.
Defined.

Example clone_sample :
  ∃ st' s',
    clone 0%nat sample_grouped = (Ok 1%nat, st') ∧
    assemblies st' !! 1%nat = Some s' ∧
    actors s' = [VRef 6; VRef 7; VRef 8] ∧
    heap st' !! 6%nat = heap sample_grouped !! 0%nat.
Proof.
  eexists _, _. split; [reflexivity | ]. vm_compute. by repeat split.
Qed.

End CloningExamples.

(** ** The alignment: checking the sources *)

Section Grouping.
Context `{Externals}.
Open Scope nat_scope.

Lemma polydata_eq (v : value) (st : state) :
  polydata v st =
  match polydata_of st v with
  | Some p => (Ok p, st)
  | None => (Raise AttributeError, st)
  end.
Proof.
  unfold polydata, polydata_of, obj_of. destruct v; try reflexivity.
  destruct (heap st !! a) as [o | ]; [ | reflexivity].
  by destruct (o_polydata o).
Qed.

Lemma N_eq (v : value) (st : state) :
  N v st =
  match point_count st v with
  | Some n => (Ok n, st)
  | None => (Raise AttributeError, st)
  end.
Proof.
  unfold N, bind, point_count. rewrite polydata_eq.
  by destruct (polydata_of st v).
Qed.

(** With equal point counts the first loop groups the point sets of the
    sources, in order, and leaves the state as it is. *)
Lemma group_sources_eq (first : value) (l : list value)
    (group : list Polydata) (st : state) (n : nat) :
  point_count st first = Some n →
  Forall (λ v, point_count st v = Some n) l →
  group_sources first l group st
  = (Ok (group ++ omap (polydata_of st) l), st).
Proof.
  intros Hfirst Hall. revert group.
  induction Hall as [ | v l Hv _ IH]; intros group.
  - cbn. unfold ret. by rewrite app_nil_r.
  - cbn [group_sources]. unfold bind. rewrite N_eq, Hfirst. cbv beta iota.
    rewrite N_eq, Hv. cbv beta iota.
    rewrite Nat.eqb_refl. cbn [negb]. rewrite polydata_eq.
    unfold point_count in Hv.
    destruct (polydata_of st v) as [p | ] eqn:Ep; [ | discriminate].
    rewrite IH. cbn [omap list_omap]. rewrite Ep.
    by rewrite <- app_assoc.
Qed.

(** The first loop as [procrustesAlignment] enters it. *)
Lemma group_all_eq (sources : list value) (st : state) (n : nat) :
  sources ≠ [] →
  Forall (λ v, point_count st v = Some n) sources →
  match sources with
  | [] => ret []
  | first :: _ => group_sources first sources []
  end st
  = (Ok (omap (polydata_of st) sources), st).
Proof.
  intros Hne Hall. destruct sources as [ | first rest]; [done | ].
  rewrite (group_sources_eq first (first :: rest) [] st n); [done | | done].
  by inversion Hall.
Qed.

(** With a source whose point count differs from that of the first, the
    first loop raises, and creates nothing. *)
Lemma group_sources_mismatch (first : value) (l : list value)
    (group : list Polydata) (st : state) (n0 : nat) :
  point_count st first = Some n0 →
  (∃ v n, v ∈ l ∧ point_count st v = Some n ∧ n ≠ n0) →
  ∃ e st',
    group_sources first l group st = (Raise e, st') ∧
    heap st' = heap st ∧ assemblies st' = assemblies st ∧
    (Forall (λ v, is_Some (point_count st v)) l →
     e = RuntimeError ∧ log st' = log st ++ [mismatch_message]).
Proof.
  intros Hfirst. revert group.
  induction l as [ | x l IH]; intros group (v & n & Hin & Hv & Hne).
  - by apply elem_of_nil in Hin.
  - cbn [group_sources]. unfold bind. rewrite N_eq, Hfirst. cbv beta iota.
    rewrite N_eq.
    destruct (point_count st x) as [nx | ] eqn:Ex.
    + destruct (Nat.eqb n0 nx) eqn:Eq; cbn [negb].
      * apply Nat.eqb_eq in Eq. subst nx. rewrite polydata_eq.
        destruct (polydata_of st x) as [p | ] eqn:Ep.
        2: { unfold point_count in Ex. rewrite Ep in Ex. discriminate. }
        apply elem_of_cons in Hin as [-> | Hin]; [congruence | ].
        destruct (IH (group ++ [p])) as (e & st' & E & Hh & Ha & Hl).
        { by exists v, n. }
        exists e, st'. rewrite E.
        split; [done | split; [done | split; [done | ]]].
        intros Hall. inversion Hall; subst. by apply Hl.
      * eexists _, _. split; [reflexivity | ]. by repeat split.
    + exists AttributeError, st.
      split; [done | split; [done | split; [done | ]]].
      intros Hall. inversion Hall as [ | ? ? [? ?] _]. congruence.
Qed.

End Grouping.

(** C2.  When the point count of some source differs from that of the
    first source, [procrustesAlignment] raises: no assembly is returned, no
    object and no assembly is created.  The sources all being point sets,
    the exception is the [RuntimeError] of the check, after the error was
    logged. *)
Theorem procrustesAlignment_mismatch_raises `{Externals}
    (st : state) (sources : list value) (rigid : bool)
    (first v : value) (n0 n : nat) :
  head sources = Some first →
  v ∈ sources →
  point_count st first = Some n0 →
  point_count st v = Some n →
  n ≠ n0 →
  ∃ e st',
    procrustesAlignment sources rigid st = (Raise e, st') ∧
    heap st' = heap st ∧ assemblies st' = assemblies st ∧
    (Forall (λ v, is_Some (point_count st v)) sources →
     e = RuntimeError ∧ log st' = log st ++ [mismatch_message]).
Proof.
  intros Hhead Hin Hfirst Hv Hne.
  destruct sources as [ | x sources]; [discriminate | ].
  injection Hhead as ->.
  destruct (group_sources_mismatch first (first :: sources) [] st n0 Hfirst)
    as (e & st' & E & Hh & Ha & Hl); [by exists v, n | ].
  exists e, st'. unfold procrustesAlignment, bind. rewrite E.
  split; [done | split; [done | split; [done | exact Hl]]].
Qed.

Section GroupingExamples.
#[local] Existing Instance sample_externals.

(** Three sources of 4, 4 and 5 points. *)
Lemma procrustesAlignment_mismatch_raises_witness :
  ∃ st',
    procrustesAlignment [VRef 0; VRef 1; VRef 3] false sample_state
    = (Raise RuntimeError, st') ∧
    heap st' = heap sample_state ∧
    assemblies st' = [] ∧
    log st' = [mismatch_message].
Proof.
  destruct (procrustesAlignment_mismatch_raises sample_state
              [VRef 0; VRef 1; VRef 3] false (VRef 0) (VRef 3) 4%nat 5%nat)
    as (e & st' & E & Hh & Ha & Hl).
  - reflexivity.
  - apply elem_of_cons. right. apply elem_of_cons. right. by left.
  - reflexivity.
  - reflexivity.
  - lia.
  - destruct Hl as [-> Hlog]; [repeat constructor; by eexists | ].
    by exists st'.
Defined.

End GroupingExamples.

(** ** The alignment: wrapping the outputs *)

Section Wrapping.
Context `{Externals}.
Open Scope nat_scope.

Lemma GetProperty_eq (v : value) (o : object) (p : Property) (st : state) :
  obj_of st v = Some o →
  o_property o = Some p →
  GetProperty v st = (Ok p, st).
Proof.
  intros Ho Hp. destruct v as [ | n | a | l]; simpl in Ho; try discriminate.
  unfold GetProperty. by rewrite Ho, Hp.
Qed.

Lemma SetProperty_last (st : state) (h : list object) (o : object)
    (p : Property) :
  heap st = h ++ [o] →
  SetProperty (length h) p st
  = (Ok tt, set_heap st (h ++ [obj_set_property o p])).
Proof.
  intros Hh. unfold SetProperty. rewrite Hh, lookup_snoc.
  by rewrite insert_snoc.
Qed.

Lemma setattr_last (st : state) (h : list object) (o : object) (k : attr)
    (x : pyobj) :
  heap st = h ++ [o] →
  setattr (length h) k x st = (Ok tt, set_heap st (h ++ [obj_set o k x])).
Proof.
  intros Hh. unfold setattr. rewrite Hh, lookup_snoc. by rewrite insert_snoc.
Qed.

Lemma attr_of_obj (st : state) (v : value) (o : object) (k : attr) :
  obj_of st v = Some o → attr_of st v k = obj_attr o k.
Proof. intros Ho. unfold attr_of. by rewrite Ho. Qed.

(** One turn of the second loop. *)
Lemma wrap_one (block : nat → Polydata) (i : nat) (s : value) (o : object)
    (st : state) (k : addr → M (list value)) :
  obj_of st s = Some o →
  is_Some (o_property o) →
  (is_Some (o_name o) → is_Some (o_flagText o)) →
  (mesh <~ Mesh (block i) ;;
   p <~ GetProperty s ;;
   SetProperty mesh p ;;;
   has <~ hasattr s attr_name ;;
   (if has : bool
    then n <~ getattr s attr_name ;;
         setattr mesh attr_name n ;;;
         f <~ getattr s attr_flagText ;;
         setattr mesh attr_flagText f
    else ret tt) ;;;
   k mesh) st
  = k (length (heap st)) (set_heap st (heap st ++ [wrapped block i o])).
Proof.
  intros Ho [p Hp] Hflag.
  assert (Hext : ∀ new, obj_of (set_heap st (heap st ++ new)) s = Some o)
    by (intros new; by apply obj_of_app).
  unfold bind at 1. unfold Mesh at 1. cbv beta iota.
  unfold bind at 1. rewrite (GetProperty_eq s o p _ (Hext _) Hp).
  unfold bind at 1. erewrite SetProperty_last; [ | reflexivity].
  rewrite set_heap_twice.
  unfold bind at 1. rewrite hasattr_eq, (attr_of_obj _ _ _ _ (Hext _)).
  cbn [obj_attr].
  destruct (o_name o) as [n | ] eqn:En.
  - destruct Hflag as [f Hf]; [by eexists | ].
    unfold bind at 1. unfold bind at 1.
    rewrite getattr_eq, (attr_of_obj _ _ _ _ (Hext _)). cbn [obj_attr].
    rewrite En. unfold bind at 1.
    erewrite setattr_last; [ | reflexivity]. rewrite set_heap_twice.
    unfold bind at 1.
    rewrite getattr_eq, (attr_of_obj _ _ _ _ (Hext _)). cbn [obj_attr].
    rewrite Hf.
    erewrite setattr_last; [ | reflexivity]. rewrite set_heap_twice.
    unfold wrapped. rewrite En, Hf, Hp. reflexivity.
  - unfold bind at 1. unfold ret at 1.
    unfold wrapped. rewrite En, Hp. reflexivity.
Qed.

End Wrapping.

Section WrappingLoop.
Context `{Externals}.
Open Scope nat_scope.

(** The objects behind a sequence of sources. *)
Lemma source_objects (st : state) (l : list value) :
  Forall (is_source st) l →
  ∃ objs,
    Forall2 (λ v o, obj_of st v = Some o ∧
                    is_Some (o_polydata o) ∧ is_Some (o_property o) ∧
                    (is_Some (o_name o) → is_Some (o_flagText o))) l objs.
Proof.
  induction 1 as [ | v l (o & Ho) _ [objs IH]].
  - exists []. constructor.
  - exists (o :: objs). by constructor.
Qed.

(** The second loop: one new mesh per source, at the next free addresses,
    in the order of the sources. *)
Lemma wrap_outputs_eq (block : nat → Polydata) (st0 : state)
    (l : list value) (objs : list object) :
  Forall2 (λ v o, obj_of st0 v = Some o ∧
                  is_Some (o_polydata o) ∧ is_Some (o_property o) ∧
                  (is_Some (o_name o) → is_Some (o_flagText o))) l objs →
  ∀ (st : state) (i : nat) (acts : list value),
    (∀ v o, obj_of st0 v = Some o → obj_of st v = Some o) →
    wrap_outputs block i l acts st
    = (Ok (acts ++ (VRef <$> seq (length (heap st)) (length l))),
       set_heap st (heap st ++ wrapped_from block i objs)).
Proof.
  induction 1 as [ | v o l objs (Ho & _ & Hp & Hf) _ IH]; intros st i acts Hext.
  - cbn. unfold ret. rewrite !app_nil_r. by destruct st.
  - cbn [wrap_outputs].
    rewrite (wrap_one block i v o st
               (λ mesh, wrap_outputs block (S i) l (acts ++ [VRef mesh]))
               (Hext _ _ Ho) Hp Hf).
    rewrite IH.
    + cbn [heap set_heap length seq fmap list_fmap wrapped_from].
      rewrite length_app. cbn [length]. rewrite <- !app_assoc. cbn [app].
      by replace (length (heap st) + 1) with (S (length (heap st))) by lia.
    + intros v' o' Hv'. by apply obj_of_app, Hext.
Qed.

Lemma wrapped_from_lookup (block : nat → Polydata) (objs : list object)
    (i j : nat) (o : object) :
  objs !! j = Some o →
  wrapped_from block i objs !! j = Some (wrapped block (i + j) o).
Proof.
  revert i j. induction objs as [ | x objs IH]; intros i j Hj.
  - by rewrite lookup_nil in Hj.
  - destruct j as [ | j]; simpl in *.
    + injection Hj as ->. by rewrite Nat.add_0_r.
    + specialize (IH (S i) j Hj). simpl in IH. rewrite IH.
      do 2 f_equal. lia.
Qed.

End WrappingLoop.

(** C1.  For a sequence of sources that is not empty and whose point sets
    all have [n] points, [procrustesAlignment] returns an assembly that
    stores as many parts as there are sources; the [i]-th part is a new
    mesh that holds the [i]-th output block of the filter and the property
    of the [i]-th source.  The assembly carries the landmark transform and
    the mean points. *)
Theorem procrustesAlignment_parts `{Externals}
    (st : state) (sources : list value) (rigid : bool) (n : nat) :
  sources ≠ [] →
  Forall (is_source st) sources →
  Forall (λ v, point_count st v = Some n) sources →
  ∃ self st' s,
    procrustesAlignment sources rigid st = (Ok self, st') ∧
    assemblies st' !! self = Some s ∧
    length (actors s) = length sources ∧
    (∀ (i : nat) (v : value),
        sources !! i = Some v →
        ∃ a o src,
          actors s !! i = Some (VRef a) ∧
          heap st !! a = None ∧
          heap st' !! a = Some o ∧
          o_polydata o
          = Some (GetBlock rigid (omap (polydata_of st) sources) i) ∧
          obj_of st v = Some src ∧
          o_property o = o_property src) ∧
    transform s
    = Some (GetLandmarkTransform rigid (omap (polydata_of st) sources)) ∧
    info s !! "mean"
    = Some (GetMeanPoints rigid (omap (polydata_of st) sources)).
Proof.
  intros Hne Hsrc Hcount.
  destruct (source_objects st sources Hsrc) as [objs Hobjs].
  set (group := omap (polydata_of st) sources).
  set (acts := VRef <$> seq (length (heap st)) (length sources)).
  set (st1 := set_heap st (heap st ++ wrapped_from (GetBlock rigid group) 0 objs)).
  set (s1 := built st1 blank acts).
  set (s2 := set_info (set_transform s1 (GetLandmarkTransform rigid group))
               "mean" (GetMeanPoints rigid group)).
  assert (E : procrustesAlignment sources rigid st
              = (Ok (length (assemblies st)),
                 set_assemblies st1 (assemblies st ++ [s2]))).
  { unfold procrustesAlignment. unfold bind at 1.
    rewrite (group_all_eq sources st n Hne Hcount). fold group.
    unfold bind at 1.
    rewrite (wrap_outputs_eq _ st sources objs Hobjs st 0%nat []); [ | done].
    cbn [app]. fold acts. fold st1. unfold bind at 1.
    rewrite (Assembly_ok [VList acts] acts st1); [ | reflexivity | | ].
    - fold s1. unfold bind at 1.
      erewrite update_eq; [ | apply lookup_snoc].
      unfold bind at 1. cbn [assemblies set_assemblies]. rewrite insert_snoc.
      erewrite update_eq; [ | apply lookup_snoc].
      unfold ret. cbn [assemblies set_assemblies]. by rewrite insert_snoc.
    - unfold renderables, acts. apply Forall_fmap, Forall_forall.
      intros a _ _. by eexists.
    - intros m0 Hm0. rewrite head_lookup in Hm0. unfold acts in Hm0.
      rewrite list_lookup_fmap in Hm0.
      apply fmap_Some in Hm0 as (a & Ea & ->).
      apply lookup_seq in Ea. destruct Ea as [Ea Hlen]. subst a.
      destruct (lookup_lt_is_Some_2 sources 0%nat Hlen) as [v Hv].
      destruct (Forall2_lookup_l _ _ _ _ _ Hobjs Hv) as (o & Ho & _).
      unfold attr_of, st1. cbn [obj_of heap set_heap].
      rewrite lookup_app_r by lia.
      replace (length (heap st) + 0 - length (heap st))%nat with 0%nat by lia.
      rewrite (wrapped_from_lookup _ _ 0%nat 0%nat o Ho). cbn.
      destruct Mesh_anchors as [[b t] | ]; cbn; [by eexists | ].
      by intros [? ?]. }
  eexists _, _, s2. split; [exact E | ].
  split; [apply lookup_snoc | ].
  split; [cbn; unfold acts; by rewrite length_fmap, length_seq | ].
  split; [ | split; [reflexivity | ]].
  - intros i v Hv.
    destruct (Forall2_lookup_l _ _ _ _ _ Hobjs Hv)
      as (src & Hsrc' & Ho & _ & _ & _).
    pose proof (lookup_lt_Some _ _ _ Hv) as Hi.
    exists (length (heap st) + i)%nat,
           (wrapped (GetBlock rigid group) i src), src.
    split.
    { cbn. unfold acts. by rewrite list_lookup_fmap, lookup_seq_lt. }
    split; [apply lookup_ge_None; lia | ].
    split.
    { cbn. rewrite lookup_app_r by lia.
      replace (length (heap st) + i - length (heap st))%nat with i by lia.
      by rewrite (wrapped_from_lookup _ _ 0%nat i src Hsrc'). }
    split; [reflexivity | split; [exact Ho | reflexivity]].
  - cbn. apply lookup_insert_eq.
Qed.

Section WrappingExamples.
#[local] Existing Instance sample_externals.

(** The three meshes of 4 points. *)
Lemma procrustesAlignment_parts_witness :
  ∃ self st' s,
    procrustesAlignment [VRef 0; VRef 1; VRef 2] true sample_state
    = (Ok self, st') ∧
    assemblies st' !! self = Some s ∧
    length (actors s) = 3%nat.
Proof.
  destruct (procrustesAlignment_parts sample_state
              [VRef 0; VRef 1; VRef 2] true 4%nat)
    as (self & st' & s & E & Hs & Hl & _).
  - discriminate.
  - repeat constructor; eexists; (split; [reflexivity | ]);
      repeat split; by eexists.
  - by repeat constructor.
  - exists self, st', s. split; [exact E | split; [exact Hs | exact Hl]].
Defined.

Example procrustesAlignment_sample :
  let r := procrustesAlignment [VRef 0; VRef 1; VRef 2] true sample_state in
  fst r = Ok 0%nat ∧
  (actors <$> assemblies (snd r) !! 0%nat)
  = Some [VRef 6; VRef 7; VRef 8] ∧
  (parts <$> assemblies (snd r) !! 0%nat) = Some [6; 7; 8]%nat ∧
  (o_name <$> heap (snd r) !! 7%nat) = Some (Some (PStr "beta")).
Proof. vm_compute. by repeat split. Qed.

End WrappingExamples.

(** ** Computations that keep a property of the state *)

Section Preserving.
Context `{Externals}.
Open Scope nat_scope.

Lemma preserves_ret {A} (I : state → Prop) (a : A) : preserves I (ret a).
Proof. by intros st Hst. Qed.

Lemma preserves_raise {A} (I : state → Prop) (e : exn) :
  preserves I (raise e : M A).
Proof. by intros st Hst. Qed.

Lemma preserves_bind {A B} (I : state → Prop) (c : M A) (k : A → M B) :
  preserves I c → (∀ a, preserves I (k a)) → preserves I (bind c k).
Proof.
  intros Hc Hk st Hst. specialize (Hc st Hst). unfold bind.
  destruct (c st) as [[a | e] st1]; [by apply Hk | exact Hc].
Qed.

(** A computation that does not write keeps everything. *)
Lemma preserves_reader {A} (I : state → Prop) (c : M A) :
  (∀ st, snd (c st) = st) → preserves I c.
Proof. intros Hc st Hst. by rewrite Hc. Qed.

Lemma preserves_hasattr (I : state → Prop) (v : value) (k : attr) :
  preserves I (hasattr v k).
Proof. by apply preserves_reader. Qed.

Lemma preserves_getattr (I : state → Prop) (v : value) (k : attr) :
  preserves I (getattr v k).
Proof.
  apply preserves_reader. intros st. rewrite getattr_eq.
  by destruct (attr_of st v k).
Qed.

(** What is written to the log stays there: only [logger_error] writes
    to it. *)
Lemma log_Mesh (L : list string) (poly : Polydata) :
  preserves (λ st, log st = L) (Mesh poly).
Proof. by intros st Hst. Qed.

Lemma log_GetProperty (L : list string) (v : value) :
  preserves (λ st, log st = L) (GetProperty v).
Proof.
  apply preserves_reader. intros st. unfold GetProperty.
  destruct v; try reflexivity.
  destruct (heap st !! a) as [o | ]; [ | reflexivity].
  by destruct (o_property o).
Qed.

Lemma log_SetProperty (L : list string) (a : addr) (p : Property) :
  preserves (λ st, log st = L) (SetProperty a p).
Proof. intros st Hst. unfold SetProperty. by destruct (heap st !! a). Qed.

Lemma log_setattr (L : list string) (a : addr) (k : attr) (x : pyobj) :
  preserves (λ st, log st = L) (setattr a k x).
Proof. intros st Hst. unfold setattr. by destruct (heap st !! a). Qed.

Lemma log_update (L : list string) (self : addr) (f : assembly → assembly) :
  preserves (λ st, log st = L) (update self f).
Proof.
  intros st Hst. unfold update, bind, get_assembly.
  by destruct (assemblies st !! self).
Qed.

Lemma log_add_truthy (L : list string) (self : addr) (l : list value) :
  preserves (λ st, log st = L) (add_truthy self l).
Proof.
  induction l as [ | a l IH]; [apply preserves_ret | ].
  cbn [add_truthy]. apply preserves_bind; [ | intros _; exact IH].
  destruct (truthy a); [ | apply preserves_ret].
  destruct a; try apply preserves_raise. apply log_update.
Qed.

Lemma log_init_anchors (L : list string) (self : addr) (l : list value) :
  preserves (λ st, log st = L) (init_anchors self l).
Proof.
  assert (Hnone : preserves (λ st, log st = L)
            (update self (λ s, set_base s (PVal VNone)) ;;;
             update self (λ s, set_top s (PVal VNone)))).
  { apply preserves_bind; [ | intros _]; apply log_update. }
  unfold init_anchors. destruct l as [ | m0 rest]; [exact Hnone | ].
  apply preserves_bind; [apply preserves_hasattr | ].
  intros [ | ]; [ | exact Hnone].
  apply preserves_bind; [apply preserves_getattr | ]. intros b.
  apply preserves_bind; [apply log_update | ]. intros _.
  apply preserves_bind; [apply preserves_getattr | ]. intros t.
  apply log_update.
Qed.

Lemma log_Assembly (L : list string) (args : list value) :
  preserves (λ st, log st = L) (Assembly args).
Proof.
  unfold Assembly. apply preserves_bind; [by intros st Hst | ]. intros self.
  apply preserves_bind; [ | intros _; apply preserves_ret].
  unfold __init__. rewrite init_sequence_eq.
  apply preserves_bind.
  { destruct (stored_sequence args);
      [apply preserves_ret | apply preserves_raise]. }
  intros l.
  apply preserves_bind; [apply log_update | ]. intros _.
  apply preserves_bind; [apply log_init_anchors | ]. intros _.
  apply log_add_truthy.
Qed.

Lemma log_wrap_outputs (L : list string) (block : nat → Polydata) (i : nat)
    (l acts : list value) :
  preserves (λ st, log st = L) (wrap_outputs block i l acts).
Proof.
  revert i acts. induction l as [ | s l IH]; intros i acts.
  - apply preserves_ret.
  - cbn [wrap_outputs].
    apply preserves_bind; [apply log_Mesh | ]. intros mesh.
    apply preserves_bind; [apply log_GetProperty | ]. intros p.
    apply preserves_bind; [apply log_SetProperty | ]. intros _.
    apply preserves_bind; [apply preserves_hasattr | ]. intros has.
    apply preserves_bind; [ | intros _; apply IH].
    destruct has; [ | apply preserves_ret].
    apply preserves_bind; [apply preserves_getattr | ]. intros n.
    apply preserves_bind; [apply log_setattr | ]. intros _.
    apply preserves_bind; [apply preserves_getattr | ]. intros f.
    apply log_setattr.
Qed.

(** The first loop ends in the state it started from, or, on a mismatch,
    in that state with the message logged and a [RuntimeError]. *)
Lemma group_sources_log (first : value) (l : list value)
    (group : list Polydata) (st : state) :
  snd (group_sources first l group st) = st ∨
  group_sources first l group st
  = (Raise RuntimeError,
     {| heap := heap st; assemblies := assemblies st;
        log := log st ++ [mismatch_message] |}).
Proof.
  revert group. induction l as [ | x l IH]; intros group; [by left | ].
  cbn [group_sources]. unfold bind. rewrite N_eq.
  destruct (point_count st first) as [n0 | ]; [ | by left].
  rewrite N_eq.
  destruct (point_count st x) as [nx | ]; [ | by left].
  destruct (negb (Nat.eqb n0 nx)); [by right | ].
  rewrite polydata_eq.
  destruct (polydata_of st x) as [p | ]; [apply IH | by left].
Qed.

End Preserving.

(** ** What a call leaves untouched *)

Section Frame.
Context `{Externals}.
Open Scope nat_scope.

Lemma extends_refl (st : state) : extends st st.
Proof. by split. Qed.

Lemma prefix_insert_ge {A} (l0 l : list A) (i : nat) (x : A) :
  l0 `prefix_of` l → length l0 ≤ i → l0 `prefix_of` <[i := x]> l.
Proof.
  intros [k ->] Hi. rewrite insert_app_r_alt by done. by eexists.
Qed.

Lemma framed_ret {A} (st0 : state) (a : A) (Q : A → Prop) :
  Q a → framed st0 (ret a) Q.
Proof. intros Ha st Hst. by split. Qed.

Lemma framed_raise {A} (st0 : state) (e : exn) (Q : A → Prop) :
  framed st0 (raise e) Q.
Proof. intros st Hst. exact Hst. Qed.

Lemma framed_bind {A B} (st0 : state) (c : M A) (k : A → M B)
    (Q : A → Prop) (Q' : B → Prop) :
  framed st0 c Q →
  (∀ a, Q a → framed st0 (k a) Q') →
  framed st0 (bind c k) Q'.
Proof.
  intros Hc Hk st Hst. specialize (Hc st Hst). unfold wp, bind in *.
  destruct (c st) as [[a | e] st1]; [ | exact Hc].
  destruct Hc as [Hst1 Ha]. exact (Hk a Ha st1 Hst1).
Qed.

(** A computation that does not write is framed. *)
Lemma framed_reader {A} (st0 : state) (c : M A) :
  (∀ st, snd (c st) = st) → framed st0 c (λ _, True).
Proof.
  intros Hc st Hst. specialize (Hc st). unfold wp.
  destruct (c st) as [[a | e] st1]; simpl in Hc; by subst.
Qed.

Lemma framed_hasattr (st0 : state) (v : value) (k : attr) :
  framed st0 (hasattr v k) (λ _, True).
Proof. by apply framed_reader. Qed.

Lemma framed_getattr (st0 : state) (v : value) (k : attr) :
  framed st0 (getattr v k) (λ _, True).
Proof.
  apply framed_reader. intros st. rewrite getattr_eq.
  by destruct (attr_of st v k).
Qed.

Lemma framed_polydata (st0 : state) (v : value) :
  framed st0 (polydata v) (λ _, True).
Proof.
  apply framed_reader. intros st. rewrite polydata_eq.
  by destruct (polydata_of st v).
Qed.

Lemma framed_N (st0 : state) (v : value) : framed st0 (N v) (λ _, True).
Proof.
  apply framed_reader. intros st. rewrite N_eq.
  by destruct (point_count st v).
Qed.

Lemma framed_GetProperty (st0 : state) (v : value) :
  framed st0 (GetProperty v) (λ _, True).
Proof.
  apply framed_reader. intros st. unfold GetProperty.
  destruct v; try reflexivity.
  destruct (heap st !! a) as [o | ]; [ | reflexivity].
  by destruct (o_property o).
Qed.

Lemma framed_logger_error (st0 : state) (msg : string) :
  framed st0 (logger_error msg) (λ _, True).
Proof. intros st Hst. by split. Qed.

(** A new mesh takes an address that [st0] does not use. *)
Lemma framed_Mesh (st0 : state) (poly : Polydata) :
  framed st0 (Mesh poly) (λ a, length (heap st0) ≤ a).
Proof.
  intros st [Hh Ha]. unfold wp, Mesh. split; [split | ].
  - by apply prefix_app_r.
  - exact Ha.
  - by apply prefix_length.
Qed.

Lemma framed_setattr (st0 : state) (a : addr) (k : attr) (x : pyobj) :
  length (heap st0) ≤ a → framed st0 (setattr a k x) (λ _, True).
Proof.
  intros Hge st [Hh Ha]. unfold wp, setattr.
  destruct (heap st !! a) as [o | ]; [ | by split].
  split; [split | done]; [ | exact Ha]. by apply prefix_insert_ge.
Qed.

Lemma framed_SetProperty (st0 : state) (a : addr) (p : Property) :
  length (heap st0) ≤ a → framed st0 (SetProperty a p) (λ _, True).
Proof.
  intros Hge st [Hh Ha]. unfold wp, SetProperty.
  destruct (heap st !! a) as [o | ]; [ | by split].
  split; [split | done]; [ | exact Ha]. by apply prefix_insert_ge.
Qed.

(** A new assembly takes an address that [st0] does not use. *)
Lemma framed_new_assembly (st0 : state) :
  framed st0 new_assembly (λ self, length (assemblies st0) ≤ self).
Proof.
  intros st [Hh Ha]. unfold wp, new_assembly. split; [split | ].
  - exact Hh.
  - by apply prefix_app_r.
  - by apply prefix_length.
Qed.

Lemma framed_update (st0 : state) (self : addr) (f : assembly → assembly) :
  length (assemblies st0) ≤ self → framed st0 (update self f) (λ _, True).
Proof.
  intros Hge st [Hh Ha]. unfold wp, update, bind, get_assembly.
  destruct (assemblies st !! self) as [s | ]; [ | by split].
  split; [split | done]; [exact Hh | ]. by apply prefix_insert_ge.
Qed.

Lemma framed_AddPart (st0 : state) (self : addr) (v : value) :
  length (assemblies st0) ≤ self → framed st0 (AddPart self v) (λ _, True).
Proof.
  intros Hge. destruct v; try apply framed_raise. by apply framed_update.
Qed.

Lemma framed_add_truthy (st0 : state) (self : addr) (l : list value) :
  length (assemblies st0) ≤ self →
  framed st0 (add_truthy self l) (λ _, True).
Proof.
  intros Hge. induction l as [ | a l IH]; [by apply framed_ret | ].
  cbn [add_truthy]. eapply framed_bind; [ | intros _ _; exact IH].
  destruct (truthy a); [by apply framed_AddPart | by apply framed_ret].
Qed.

Lemma framed_init_anchors (st0 : state) (self : addr) (l : list value) :
  length (assemblies st0) ≤ self →
  framed st0 (init_anchors self l) (λ _, True).
Proof.
  intros Hge.
  assert (Hnone : framed st0
            (update self (λ s, set_base s (PVal VNone)) ;;;
             update self (λ s, set_top s (PVal VNone))) (λ _, True)).
  { eapply framed_bind; [by apply framed_update | ].
    intros _ _. by apply framed_update. }
  unfold init_anchors. destruct l as [ | m0 rest]; [exact Hnone | ].
  eapply framed_bind; [apply framed_hasattr | ]. intros [ | ] _; [ | exact Hnone].
  eapply framed_bind; [apply framed_getattr | ]. intros b _.
  eapply framed_bind; [by apply framed_update | ]. intros _ _.
  eapply framed_bind; [apply framed_getattr | ]. intros t _.
  by apply framed_update.
Qed.

Lemma framed_init (st0 : state) (self : addr) (args : list value) :
  length (assemblies st0) ≤ self →
  framed st0 (__init__ self args) (λ _, True).
Proof.
  intros Hge. unfold __init__. rewrite init_sequence_eq.
  eapply framed_bind with (Q := λ _, True).
  { destruct (stored_sequence args); [by apply framed_ret | apply framed_raise]. }
  intros l _.
  eapply framed_bind; [by apply framed_update | ]. intros _ _.
  eapply framed_bind; [by apply framed_init_anchors | ]. intros _ _.
  by apply framed_add_truthy.
Qed.

Lemma framed_Assembly (st0 : state) (args : list value) :
  framed st0 (Assembly args) (λ self, length (assemblies st0) ≤ self).
Proof.
  unfold Assembly. eapply framed_bind; [apply framed_new_assembly | ].
  intros self Hself.
  eapply framed_bind; [by apply framed_init | ]. intros _ _.
  by apply framed_ret.
Qed.

Lemma framed_group_sources (st0 : state) (first : value) (l : list value)
    (group : list Polydata) :
  framed st0 (group_sources first l group) (λ _, True).
Proof.
  revert group. induction l as [ | s l IH]; intros group.
  - by apply framed_ret.
  - cbn [group_sources].
    eapply framed_bind; [apply framed_N | ]. intros n0 _.
    eapply framed_bind; [apply framed_N | ]. intros n _.
    destruct (negb (Nat.eqb n0 n)).
    + eapply framed_bind; [apply framed_logger_error | ]. intros _ _.
      apply framed_raise.
    + eapply framed_bind; [apply framed_polydata | ]. intros p _. apply IH.
Qed.

Lemma framed_wrap_outputs (st0 : state) (block : nat → Polydata) (i : nat)
    (l acts : list value) :
  framed st0 (wrap_outputs block i l acts) (λ _, True).
Proof.
  revert i acts. induction l as [ | s l IH]; intros i acts.
  - by apply framed_ret.
  - cbn [wrap_outputs].
    eapply framed_bind; [apply framed_Mesh | ]. intros mesh Hmesh.
    eapply framed_bind; [apply framed_GetProperty | ]. intros p _.
    eapply framed_bind; [by apply framed_SetProperty | ]. intros _ _.
    eapply framed_bind; [apply framed_hasattr | ]. intros has _.
    eapply framed_bind with (Q := λ _, True); [ | intros _ _; apply IH].
    destruct has; [ | by apply framed_ret].
    eapply framed_bind; [apply framed_getattr | ]. intros n _.
    eapply framed_bind; [by apply framed_setattr | ]. intros _ _.
    eapply framed_bind; [apply framed_getattr | ]. intros f _.
    by apply framed_setattr.
Qed.

Lemma framed_procrustesAlignment (st0 : state) (sources : list value)
    (rigid : bool) :
  framed st0 (procrustesAlignment sources rigid) (λ _, True).
Proof.
  unfold procrustesAlignment.
  eapply framed_bind with (Q := λ _, True).
  { destruct sources; [by apply framed_ret | apply framed_group_sources]. }
  intros group _.
  eapply framed_bind; [apply framed_wrap_outputs | ]. intros acts _.
  eapply framed_bind; [apply framed_Assembly | ]. intros assem Hassem.
  eapply framed_bind; [by apply framed_update | ]. intros _ _.
  eapply framed_bind; [by apply framed_update | ]. intros _ _.
  by apply framed_ret.
Qed.

Lemma extends_obj_of (st st' : state) (v : value) (o : object) :
  extends st st' → obj_of st v = Some o → obj_of st' v = Some o.
Proof.
  intros [Hh _]. destruct v as [ | n | a | l]; simpl; try discriminate.
  intros E. by eapply prefix_lookup_Some.
Qed.

End Frame.

(** C8 (as amended).  Whatever [procrustesAlignment] does, returning or
    raising, every object and every assembly that existed before the call
    is the same after it: a source keeps its point set, its name and its
    property.  Besides creating objects, the call has one effect: on a
    mismatch of the point counts it writes its error message to the log
    before it raises, and then it creates nothing. *)
Theorem procrustesAlignment_keeps_sources `{Externals}
    (st : state) (sources : list value) (rigid : bool) :
  let r := procrustesAlignment sources rigid st in
  let st' := snd r in
  (∃ new, heap st' = heap st ++ new) ∧
  (∃ new, assemblies st' = assemblies st ++ new) ∧
  (∀ (v : value) (o : object),
      v ∈ sources → obj_of st v = Some o →
      obj_of st' v = Some o ∧
      polydata_of st' v = o_polydata o ∧
      attr_of st' v attr_name = o_name o ∧
      (o_property <$> obj_of st' v) = Some (o_property o)) ∧
  (log st' = log st ∨
   (fst r = Raise RuntimeError ∧
    log st' = log st ++ [mismatch_message] ∧
    heap st' = heap st ∧ assemblies st' = assemblies st)).
Proof.
  intros r st'.
  assert (Hext : extends st st').
  { pose proof (framed_procrustesAlignment st sources rigid st
                  (extends_refl st)) as Hf.
    unfold wp in Hf. subst st' r.
    destruct (procrustesAlignment sources rigid st) as [[a | e] st1];
      [by destruct Hf | exact Hf]. }
  split; [exact (proj1 Hext) | split; [exact (proj2 Hext) | split]].
  - intros v o _ Ho. pose proof (extends_obj_of _ _ _ _ Hext Ho) as Ho'.
    unfold polydata_of, attr_of. rewrite Ho'. by repeat split.
  - subst st' r. unfold procrustesAlignment.
    set (rest := λ group : list Polydata,
           acts <~ wrap_outputs (GetBlock rigid group) 0 sources [] ;;
           assem <~ Assembly [VList acts] ;;
           update assem
             (λ s, set_transform s (GetLandmarkTransform rigid group)) ;;;
           update assem
             (λ s, set_info s "mean" (GetMeanPoints rigid group)) ;;;
           ret assem).
    assert (Hrest : ∀ group, preserves (λ st1, log st1 = log st) (rest group)).
    { intros group. unfold rest.
      apply preserves_bind; [apply log_wrap_outputs | ]. intros acts.
      apply preserves_bind; [apply log_Assembly | ]. intros assem.
      apply preserves_bind; [apply log_update | ]. intros _.
      apply preserves_bind; [apply log_update | ]. intros _.
      apply preserves_ret. }
    change (log (snd (bind match sources with
                           | [] => ret []
                           | first :: _ => group_sources first sources []
                           end rest st)) = log st
            ∨ fst (bind match sources with
                        | [] => ret []
                        | first :: _ => group_sources first sources []
                        end rest st) = Raise RuntimeError
              ∧ log (snd (bind match sources with
                               | [] => ret []
                               | first :: _ => group_sources first sources []
                               end rest st))
                = log st ++ [mismatch_message]
              ∧ heap (snd (bind match sources with
                                | [] => ret []
                                | first :: _ => group_sources first sources []
                                end rest st)) = heap st
              ∧ assemblies (snd (bind match sources with
                                      | [] => ret []
                                      | first :: _ =>
                                          group_sources first sources []
                                      end rest st)) = assemblies st).
    unfold bind.
    destruct sources as [ | first more].
    + left. by apply (Hrest [] st).
    + destruct (group_sources_log first (first :: more) [] st) as [Hsame | E].
      * left.
        destruct (group_sources first (first :: more) [] st)
          as [[group | e] st1]; cbn in Hsame; subst st1; [ | done].
        by apply (Hrest group st).
      * right. by rewrite E.
Qed.

Section FrameExamples.
#[local] Existing Instance sample_externals.

(** After the alignment of the three meshes of 4 points, the mesh "beta"
    is as it was. *)
Lemma procrustesAlignment_keeps_sources_witness :
  obj_of (snd (procrustesAlignment [VRef 0; VRef 1; VRef 2] false
                 sample_state)) (VRef 1)
  = Some (sample_mesh "beta" 4).
Proof.
  destruct (procrustesAlignment_keeps_sources sample_state
              [VRef 0; VRef 1; VRef 2] false) as (_ & _ & Hsrc & _).
  apply (Hsrc (VRef 1) (sample_mesh "beta" 4)).
  - apply elem_of_cons. right. by left.
  - reflexivity.
Defined.

(** C8 fails as stated: with sources of 4, 4 and 5 points the call creates
    no object and no assembly, and yet it has an effect: the log has
    changed. *)
Lemma procrustesAlignment_logs_counterexample :
  let st' := snd (procrustesAlignment [VRef 0; VRef 1; VRef 3] false
                    sample_state) in
  heap st' = heap sample_state ∧
  assemblies st' = assemblies sample_state ∧
  log st' ≠ log sample_state.
Proof. vm_compute. by repeat split. Qed.

End FrameExamples.

(** * Further properties *)

(** ** Lookups *)

Section MoreReading.
Context `{Externals}.
Open Scope nat_scope.

Lemma py_index_Some {A} (l : list A) (i : Z) (v : A) :
  py_index l i = Some v ↔
  ((0 ≤ i)%Z ∧ l !! Z.to_nat i = Some v) ∨
  ((i < 0)%Z ∧ (- Z.of_nat (length l) ≤ i)%Z ∧
   l !! Z.to_nat (Z.of_nat (length l) + i) = Some v).
Proof.
  unfold py_index.
  destruct ((0 <=? i)%Z && (i <? Z.of_nat (length l))%Z) eqn:E1.
  - apply andb_true_iff in E1 as [?%Z.leb_le ?%Z.ltb_lt].
    split; [by left | intros [[_ Hv] | [? _]]; [done | lia]].
  - destruct ((- Z.of_nat (length l) <=? i)%Z && (i <? 0)%Z) eqn:E2.
    + apply andb_true_iff in E2 as [?%Z.leb_le ?%Z.ltb_lt].
      split; [by right | intros [[? _] | (_ & _ & Hv)]; [lia | done]].
    + split; [discriminate | ].
      intros [[Hi Hv] | (Hi & Hlo & Hv)].
      * apply lookup_lt_Some in Hv.
        apply andb_false_iff in E1 as [?%Z.leb_gt | ?%Z.ltb_ge]; lia.
      * apply andb_false_iff in E2 as [?%Z.leb_gt | ?%Z.ltb_ge]; lia.
Qed.

(** The search of [unpack] leaves the state as it is, and what it returns
    is an entry of the sequence or [None]. *)
Lemma unpack_str_result (str : string) (l : list value) (st st' : state)
    (r : outcome value) :
  unpack_str str l st = (r, st') →
  st' = st ∧ ∀ v, r = Ok v → v = VNone ∨ v ∈ l.
Proof.
  revert r. induction l as [ | m l IH]; intros r E.
  - cbn in E. injection E as <- <-. split; [done | ].
    intros v [= <-]. by left.
  - cbn [unpack_str] in E. unfold bind in E. rewrite getattr_eq in E.
    destruct (attr_of st m attr_name) as [n | ].
    + destruct (str_in_obj str n) as [[ | ] | ].
      * injection E as <- <-. split; [done | ].
        intros v [= <-]. right. by left.
      * destruct (IH r E) as [-> Hr]. split; [done | ].
        intros v Hv. destruct (Hr v Hv) as [-> | Hin]; [by left | ].
        right. by right.
      * injection E as <- <-. split; [done | ]. intros v [=].
    + injection E as <- <-. split; [done | ]. intros v [=].
Qed.

End MoreReading.

(** X1.  [unpack] of an integer returns the entry at that position of the
    stored sequence, a negative integer counting from the end, exactly
    when the position exists; [unpack(-1)] is the last stored entry. *)
Theorem unpack_integer_position `{Externals}
    (st : state) (self : addr) (s : assembly) (i : Z) :
  assemblies st !! self = Some s →
  (∀ v : value,
      unpack self (PVal (VInt i)) st = (Ok v, st) ↔
      ((0 ≤ i) ∧ actors s !! Z.to_nat i = Some v) ∨
      ((i < 0) ∧ (- Z.of_nat (length (actors s)) ≤ i) ∧
       actors s !! Z.to_nat (Z.of_nat (length (actors s)) + i) = Some v)) ∧
  (∀ v : value,
      last (actors s) = Some v →
      unpack self (PVal (VInt (-1))) st = (Ok v, st)).
Proof.
  intros Hself.
  assert (Hun : ∀ k, unpack self (PVal (VInt k)) st
                     = match py_index (actors s) k with
                       | Some v => (Ok v, st)
                       | None => (Raise IndexError, st)
                       end).
  { intros k. unfold unpack, bind. rewrite (get_assembly_eq _ _ _ Hself).
    by destruct (py_index (actors s) k). }
  split.
  - intros v. rewrite Hun, <- py_index_Some.
    destruct (py_index (actors s) i) as [w | ]; split; congruence.
  - intros v Hlast. rewrite Hun.
    assert (Hi : py_index (actors s) (-1) = Some v); [ | by rewrite Hi].
    apply py_index_Some. right.
    rewrite last_lookup in Hlast.
    pose proof (lookup_lt_Some _ _ _ Hlast) as Hlt.
    split; [lia | split; [lia | ]].
    replace (Z.to_nat (Z.of_nat (length (actors s)) + -1))
      with (Nat.pred (length (actors s))) by lia.
    exact Hlast.
Qed.

(** X2.  [unpack] and [__contains__] only read: whatever the selector and
    whether they return or raise, the state is as before; and what
    [unpack] returns is the stored sequence itself, one of its entries, or
    [None]. *)
Theorem unpack_contains_read_only `{Externals}
    (st st' : state) (self : addr) (i : pyobj) (r : outcome value) :
  unpack self i st = (r, st') →
  st' = st ∧
  snd (__contains__ self i st) = st ∧
  (∀ s v, assemblies st !! self = Some s → r = Ok v →
          v = VNone ∨ v = VList (actors s) ∨ v ∈ actors s).
Proof.
  intros E. unfold unpack, __contains__, bind, get_assembly in *.
  destruct (assemblies st !! self) as [s | ] eqn:Hself.
  - assert (st' = st ∧
            ∀ v, r = Ok v → v = VNone ∨ v = VList (actors s) ∨ v ∈ actors s)
      as [-> Hr].
    { destruct i as [str | [ | k | a | l]].
      - destruct (unpack_str_result _ _ _ _ _ E) as [-> Hr].
        split; [done | ]. intros v Hv. destruct (Hr v Hv); tauto.
      - injection E as <- <-. split; [done | ].
        intros v [= <-]. right. by left.
      - destruct (py_index (actors s) k) as [w | ] eqn:Ek;
          injection E as <- <-; (split; [done | ]); intros v [= <-].
        right. right. apply py_index_Some in Ek.
        destruct Ek as [[_ Hw] | (_ & _ & Hw)];
          by eapply list_elem_of_lookup_2.
      - injection E as <- <-. split; [done | ]. intros v [= <-]. by left.
      - injection E as <- <-. split; [done | ]. intros v [= <-]. by left. }
    split; [done | split; [done | ]].
    intros s0 v [= <-]. apply Hr.
  - injection E as <- <-. by repeat split.
Qed.

Section MoreReadingExamples.
#[local] Existing Instance sample_externals.

Lemma unpack_integer_position_witness :
  assemblies sample_grouped !! 0%nat = Some sample_group ∧
  unpack 0%nat (PVal (VInt (-1))) sample_grouped
  = (Ok (VRef 2), sample_grouped) ∧
  unpack 0%nat (PVal (VInt (-3))) sample_grouped
  = (Ok (VRef 0), sample_grouped).
Proof.
  assert (Hself : assemblies sample_grouped !! 0%nat = Some sample_group)
    by reflexivity.
  destruct (unpack_integer_position sample_grouped 0%nat sample_group (-3)
              Hself) as [Hpos _].
  destruct (unpack_integer_position sample_grouped 0%nat sample_group (-1)
              Hself) as [_ Hlast].
  split; [exact Hself | split; [by apply Hlast | ]].
  apply Hpos. right. split; [lia | split; [simpl; lia | reflexivity]].
Defined.

Lemma unpack_contains_read_only_witness :
  unpack 0%nat (PStr "mm") sample_grouped = (Ok (VRef 2), sample_grouped) ∧
  (VRef 2 = VNone ∨ VRef 2 = VList (actors sample_group) ∨
   VRef 2 ∈ actors sample_group).
Proof.
  assert (E : unpack 0%nat (PStr "mm") sample_grouped
              = (Ok (VRef 2), sample_grouped)) by reflexivity.
  split; [exact E | ].
  destruct (unpack_contains_read_only _ _ _ _ _ E) as (_ & _ & Hr).
  by apply (Hr sample_group).
Defined.

End MoreReadingExamples.

(** ** The constructor: outcomes and effects *)

Section MoreConstructor.
Context `{Externals}.
Open Scope nat_scope.

(** Writes to the newest assembly keep everything else. *)
Lemma one_more_update (st0 : state) (f : assembly → assembly) :
  preserves (one_more st0) (update (length (assemblies st0)) f).
Proof.
  intros st (Hh & Hl & s & Ha).
  rewrite (update_eq _ f s); [ | rewrite Ha; apply lookup_snoc].
  split; [exact Hh | split; [exact Hl | ]].
  exists (f s). cbn. by rewrite Ha, insert_snoc.
Qed.

Lemma one_more_AddPart (st0 : state) (v : value) :
  preserves (one_more st0) (AddPart (length (assemblies st0)) v).
Proof.
  destruct v; try apply preserves_raise. apply one_more_update.
Qed.

Lemma one_more_add_truthy (st0 : state) (l : list value) :
  preserves (one_more st0) (add_truthy (length (assemblies st0)) l).
Proof.
  induction l as [ | a l IH]; [apply preserves_ret | ].
  cbn [add_truthy]. apply preserves_bind; [ | intros _; exact IH].
  destruct (truthy a); [apply one_more_AddPart | apply preserves_ret].
Qed.

Lemma one_more_init_anchors (st0 : state) (l : list value) :
  preserves (one_more st0) (init_anchors (length (assemblies st0)) l).
Proof.
  assert (Hnone : preserves (one_more st0)
            (update (length (assemblies st0))
               (λ s, set_base s (PVal VNone)) ;;;
             update (length (assemblies st0))
               (λ s, set_top s (PVal VNone)))).
  { apply preserves_bind; [ | intros _]; apply one_more_update. }
  unfold init_anchors. destruct l as [ | m0 rest]; [exact Hnone | ].
  apply preserves_bind; [apply preserves_hasattr | ].
  intros [ | ]; [ | exact Hnone].
  apply preserves_bind; [apply preserves_getattr | ]. intros b.
  apply preserves_bind; [apply one_more_update | ]. intros _.
  apply preserves_bind; [apply preserves_getattr | ]. intros t.
  apply one_more_update.
Qed.

Lemma one_more_init (st0 : state) (args : list value) :
  preserves (one_more st0) (__init__ (length (assemblies st0)) args).
Proof.
  unfold __init__. rewrite init_sequence_eq.
  apply preserves_bind.
  { destruct (stored_sequence args);
      [apply preserves_ret | apply preserves_raise]. }
  intros l.
  apply preserves_bind; [apply one_more_update | ]. intros _.
  apply preserves_bind; [apply one_more_init_anchors | ]. intros _.
  apply one_more_add_truthy.
Qed.

(** [__init__] reads its arguments through the sequence they stand for. *)
Lemma init_by_sequence (self : addr) (args args' : list value) :
  stored_sequence args = stored_sequence args' →
  __init__ self args = __init__ self args'.
Proof. intros E. unfold __init__. by rewrite !init_sequence_eq, E. Qed.

(** Which exception the constructor raises. *)
Lemma init_raises (self : addr) (args l : list value) (s0 : assembly)
    (st : state) :
  assemblies st !! self = Some s0 →
  stored_sequence args = Some l →
  ∃ r st', __init__ self args st = (r, st') ∧
    (¬ anchored st l → r = Raise AttributeError) ∧
    (anchored st l → ¬ renderables l → r = Raise TypeError).
Proof.
  intros Hself Hs. unfold __init__. rewrite init_sequence_eq, Hs.
  unfold bind at 1. unfold ret at 1. unfold bind at 1.
  rewrite (update_eq _ _ _ _ Hself).
  pose proof (lookup_updated self s0 (set_actors s0 l) st Hself) as H1.
  unfold bind at 1.
  destruct (init_anchors_cases self l (set_actors s0 l) _ H1)
    as [[Ha E] | [Ha E]]; rewrite E.
  - simpl. rewrite list_insert_insert_eq.
    match goal with
    | |- context [add_truthy self l ?st1] =>
        destruct (add_truthy_cases self l
                    (set_top (set_base (set_actors s0 l)
                                (fst (anchors_of st l)))
                       (snd (anchors_of st l))) st1)
          as [[Hr' E'] | [_ [st' E']]]; [ | rewrite E' ..]
    end.
    + simpl. apply list_lookup_insert_eq. by eapply lookup_lt_Some.
    + eexists _, _. split; [reflexivity | ].
      split; [intros Hno; by destruct Hno | intros _ Hr; by destruct Hr].
    + eexists _, _. split; [reflexivity | ].
      split; [intros Hno; by destruct Hno | done].
  - eexists _, _. split; [reflexivity | ].
    split; [done | intros Ha'; by destruct Ha].
Qed.

End MoreConstructor.

(** X3.  The outcome of the constructor, case by case: it raises
    [TypeError] for a single argument that is no list; [AttributeError]
    when the first element of the sequence has a [top] and no [base];
    [TypeError] when an entry that counts as true is no renderable; and it
    returns, the new instance, in every other case. *)
Theorem Assembly_outcome `{Externals} (st : state) (args : list value) :
  (stored_sequence args = None → fst (Assembly args st) = Raise TypeError) ∧
  (∀ l, stored_sequence args = Some l →
        (¬ anchored st l → fst (Assembly args st) = Raise AttributeError) ∧
        (anchored st l → ¬ renderables l →
         fst (Assembly args st) = Raise TypeError) ∧
        (anchored st l → renderables l →
         fst (Assembly args st) = Ok (length (assemblies st)))) ∧
  ((∃ self st', Assembly args st = (Ok self, st')) ↔
   (∃ l, stored_sequence args = Some l ∧ renderables l ∧ anchored st l)).
Proof.
  split; [ | split].
  - intros Hs. destruct (Assembly_cases args st) as (r & st' & E & Hc).
    rewrite Hs in Hc. by rewrite E, Hc.
  - intros l Hs.
    destruct (init_raises (length (assemblies st)) args l blank
                (set_assemblies st (assemblies st ++ [blank]))
                (lookup_snoc _ _) Hs) as (r & st1 & E & Hattr & Htype).
    assert (Hfst : ∀ e, r = Raise e → fst (Assembly args st) = Raise e).
    { intros e ->. unfold Assembly, bind, new_assembly. by rewrite E. }
    split; [ | split].
    + intros Ha. by apply Hfst, Hattr.
    + intros Ha Hr. by apply Hfst, Htype.
    + intros Ha Hr. by rewrite (Assembly_ok args l st Hs Hr Ha).
  - split.
    + intros (self & st' & E).
      destruct (Assembly_inv _ _ _ _ E) as (l & Hs & Hr & Ha & _).
      by exists l.
    + intros (l & Hs & Hr & Ha). eexists _, _. by apply Assembly_ok.
Qed.

(** X4.  The two ways of calling the constructor agree on a sequence
    without nested lists whose length is not one: its elements passed as
    separate arguments give what the list passed as one argument gives.
    Without arguments, as with the empty list, the assembly is empty: no
    actor, no part, no anchor. *)
Theorem Assembly_call_conventions `{Externals} (st : state) :
  (∀ l : list value,
      flat l → length l ≠ 1%nat → Assembly l st = Assembly [VList l] st) ∧
  (∃ s, Assembly [] st
        = (Ok (length (assemblies st)),
           set_assemblies st (assemblies st ++ [s])) ∧
        actors s = [] ∧ parts s = [] ∧
        a_base s = PVal VNone ∧ a_top s = PVal VNone).
Proof.
  split.
  - intros l Hflat Hlen. unfold Assembly.
    assert (Hs : stored_sequence l = stored_sequence [VList l]).
    { by rewrite (stored_sequence_several l Hlen), (flatten_of_flat l Hflat). }
    unfold bind at 1 3. unfold new_assembly.
    by rewrite (init_by_sequence _ _ _ Hs).
  - exists (built st blank []). split; [ | done].
    apply (Assembly_ok [] []); [reflexivity | constructor | ].
    intros m0 Hm0. discriminate.
Qed.

(** X5.  The constructor writes to the new instance only: whether it
    returns or raises, every object is as before, the log is as before,
    and the assemblies are those before and one more. *)
Theorem Assembly_only_creates `{Externals} (st : state) (args : list value) :
  one_more st (snd (Assembly args st)).
Proof.
  unfold Assembly, bind at 1. unfold new_assembly at 1.
  assert (H1 : one_more st (set_assemblies st (assemblies st ++ [blank])))
    by (split; [done | split; [done | by exists blank]]).
  pose proof (preserves_bind (one_more st)
                (__init__ (length (assemblies st)) args)
                (λ _, ret (length (assemblies st)))
                (one_more_init st args)
                (λ _, preserves_ret _ _) _ H1) as Hp.
  exact Hp.
Qed.

(** X6.  Construction and lookup round trip: in an assembly that was
    constructed, [__contains__] holds of exactly the entries of the
    sequence of the call, and [unpack(i)] returns its [i]-th entry. *)
Theorem Assembly_then_lookup `{Externals}
    (st st' : state) (args : list value) (self : addr) :
  Assembly args st = (Ok self, st') →
  ∃ l,
    stored_sequence args = Some l ∧
    (∀ x : pyobj, ∃ b : bool,
        __contains__ self x st' = (Ok b, st') ∧
        (b = true ↔ ∃ v, v ∈ l ∧ x = PVal v)) ∧
    (∀ (i : nat) (v : value),
        l !! i = Some v →
        unpack self (PVal (VInt (Z.of_nat i))) st' = (Ok v, st')).
Proof.
  intros E. apply Assembly_inv in E as (l & Hs & Hr & Ha & -> & ->).
  exists l. split; [exact Hs | split].
  - intros x. exists (py_in x l). split; [ | apply py_in_spec].
    unfold __contains__, bind.
    by rewrite (get_assembly_eq _ _ _ (built_lookup st l)).
  - intros i v Hi. unfold unpack, bind.
    rewrite (get_assembly_eq _ _ _ (built_lookup st l)). cbn [actors built].
    assert (Hp : py_index l (Z.of_nat i) = Some v); [ | by rewrite Hp].
    apply py_index_Some. left. split; [lia | by rewrite Nat2Z.id].
Qed.

Section MoreConstructorExamples.
#[local] Existing Instance sample_externals.

(** [Assembly(alpha)], [Assembly([0, 7])], [Assembly([alpha, beta])]. *)
Lemma Assembly_outcome_witness :
  fst (Assembly [VRef 0] sample_state) = Raise TypeError ∧
  fst (Assembly [VList [VInt 0; VInt 7]] sample_state) = Raise TypeError ∧
  fst (Assembly [VList [VRef 0; VRef 1]] sample_state) = Ok 0%nat.
Proof.
  destruct (Assembly_outcome sample_state [VRef 0]) as (Hnone & _ & _).
  destruct (Assembly_outcome sample_state [VList [VInt 0; VInt 7]])
    as (_ & Hseven & _).
  destruct (Assembly_outcome sample_state [VList [VRef 0; VRef 1]])
    as (_ & Hok & _).
  split; [by apply Hnone | split].
  - apply (Hseven [VInt 0; VInt 7] eq_refl).
    + intros m Hm [t Ht]. injection Hm as <-. discriminate Ht.
    + intros Hr. inversion Hr as [ | ? ? _ Hr']; subst.
      inversion Hr' as [ | ? ? H7 _]; subst.
      destruct (H7 eq_refl) as [a Ha]. discriminate Ha.
  - apply (Hok [VRef 0; VRef 1] eq_refl).
    + intros m Hm _. injection Hm as <-. by eexists.
    + repeat constructor; intros _; by eexists.
Defined.

(** [Assembly(alpha, beta)] is [Assembly([alpha, beta])]. *)
Lemma Assembly_call_conventions_witness :
  Assembly [VRef 0; VRef 1] sample_state
  = Assembly [VList [VRef 0; VRef 1]] sample_state.
Proof.
  destruct (Assembly_call_conventions sample_state) as [Hsame _].
  apply Hsame; [ | simpl; lia].
  repeat constructor; discriminate.
Defined.

Lemma Assembly_then_lookup_witness :
  Assembly [VList [VRef 4; VNone; VRef 0]] sample_state
  = (Ok 0%nat, snd (Assembly [VList [VRef 4; VNone; VRef 0]] sample_state)) ∧
  ∃ l,
    stored_sequence [VList [VRef 4; VNone; VRef 0]] = Some l ∧
    (∀ x : pyobj, ∃ b : bool,
        __contains__ 0%nat x
          (snd (Assembly [VList [VRef 4; VNone; VRef 0]] sample_state))
        = (Ok b, snd (Assembly [VList [VRef 4; VNone; VRef 0]] sample_state)) ∧
        (b = true ↔ ∃ v, v ∈ l ∧ x = PVal v)) ∧
    (∀ (i : nat) (v : value),
        l !! i = Some v →
        unpack 0%nat (PVal (VInt (Z.of_nat i)))
          (snd (Assembly [VList [VRef 4; VNone; VRef 0]] sample_state))
        = (Ok v, snd (Assembly [VList [VRef 4; VNone; VRef 0]] sample_state))).
Proof.
  assert (E : Assembly [VList [VRef 4; VNone; VRef 0]] sample_state
              = (Ok 0%nat,
                 snd (Assembly [VList [VRef 4; VNone; VRef 0]] sample_state)))
    by reflexivity.
  split; [exact E | ].
  exact (Assembly_then_lookup _ _ _ _ E).
Defined.

End MoreConstructorExamples.

(** ** Adding parts: effects and failure *)

Section MoreAdding.
Context `{Externals}.
Open Scope nat_scope.

Lemma grown_refl (s : assembly) : grown s s.
Proof. by repeat split. Qed.

Lemma parts_grown_refl (st : state) (self : addr) : parts_grown st self st.
Proof.
  split; [done | split; [done | split; [done | ]]].
  intros j s Hj. exists s. split; [done | split; [done | apply grown_refl]].
Qed.

Lemma subseteq_add_part (ps : list addr) (a : addr) : ps ⊆ add_part ps a.
Proof. intros b Hb. apply elem_of_add_part. by left. Qed.

Lemma parts_grown_AddPart (st0 : state) (self : addr) (v : value) :
  preserves (parts_grown st0 self) (AddPart self v).
Proof.
  destruct v as [ | n | a | l]; try apply preserves_raise.
  intros st (Hh & Hl & Hlen & Hall). unfold AddPart, update, bind, get_assembly.
  destruct (assemblies st !! self) as [s1 | ] eqn:Hs1.
  - unfold snd, ret, put_assembly, parts_grown.
    cbn [heap log assemblies set_assemblies].
    split; [exact Hh | split; [exact Hl | split]].
    { by rewrite length_insert. }
    intros j s Hj. destruct (Hall j s Hj) as (s' & Hj' & Hne & Hg).
    destruct (decide (j = self)) as [-> | Hjs].
    + rewrite Hs1 in Hj'. injection Hj' as ->.
      eexists. split; [apply list_lookup_insert_eq; by eapply lookup_lt_Some | ].
      split; [done | ].
      destruct Hg as (Ha & Hb & Ht & Htr & Hi & Hp).
      repeat split; try done.
      intros b Hb'. cbn. apply subseteq_add_part. by apply Hp.
    + exists s'. split; [by rewrite list_lookup_insert_ne | done].
  - cbn. by repeat split.
Qed.

Lemma parts_grown_add_each (st0 : state) (self : addr) (l : list value) :
  preserves (parts_grown st0 self) (add_each self l).
Proof.
  induction l as [ | a l IH]; [apply preserves_ret | ].
  cbn [add_each]. apply preserves_bind; [ | intros _; exact IH].
  apply parts_grown_AddPart.
Qed.

Lemma add_each_app (self : addr) (l l' : list value) (st : state) :
  add_each self (l ++ l') st
  = (add_each self l ;;; add_each self l') st.
Proof.
  revert st. induction l as [ | a l IH]; intros st; [reflexivity | ].
  cbn [app add_each]. unfold bind.
  destruct (AddPart self a st) as [[[] | e] st1]; [ | reflexivity].
  rewrite IH. reflexivity.
Qed.

Lemma AddPart_no_crash (self : addr) (v : value) (st : state) :
  v ≠ VNone → fst (AddPart self v st) ≠ Raise InterpreterCrash.
Proof.
  intros Hv. destruct v as [ | n | a | l]; try done.
  unfold AddPart, update, bind, get_assembly.
  by destruct (assemblies st !! self).
Qed.

Lemma add_each_no_crash (self : addr) (l : list value) (st : state) :
  VNone ∉ l → fst (add_each self l st) ≠ Raise InterpreterCrash.
Proof.
  revert st. induction l as [ | a l IH]; intros st Hl; [done | ].
  apply not_elem_of_cons in Hl as [Ha Hl].
  cbn [add_each]. unfold bind.
  pose proof (AddPart_no_crash self a st (λ E, Ha (eq_sym E))) as Hone.
  destruct (AddPart self a st) as [[[] | e] st1]; [by apply IH | exact Hone].
Qed.

End MoreAdding.

(** X7.  Whenever [__add__] returns or raises an exception, as it does
    for every argument that holds no [None], it has changed nothing but the
    parts of the scene node of its assembly, and those only grow: the
    stored sequence, the anchors, the transform and the info of the
    assembly, the other assemblies and every object are as before. *)
Theorem add_only_grows_parts `{Externals}
    (st : state) (self : addr) (m : value) :
  (VNone ∉ added_items m →
   fst (__add__ self m st) ≠ Raise InterpreterCrash) ∧
  (fst (__add__ self m st) ≠ Raise InterpreterCrash →
   parts_grown st self (snd (__add__ self m st))).
Proof.
  split.
  - intros Hm. unfold __add__, bind.
    assert (Hrun : fst (match m with
                        | VList l => add_each self l
                        | _ => AddPart self m
                        end st) ≠ Raise InterpreterCrash).
    { destruct m as [ | n | a | l]; cbn [added_items] in Hm;
        try (apply AddPart_no_crash; intros E;
             first [discriminate E | apply Hm; by left]).
      by apply add_each_no_crash. }
    destruct (match m with VList l => add_each self l | _ => AddPart self m end st)
      as [[[] | e] st1]; [done | ].
    cbn in *. intros [= ->]. by apply Hrun.
  - intros _.
    assert (Hp : preserves (parts_grown st self) (__add__ self m)).
    { unfold __add__. apply preserves_bind; [ | intros _; apply preserves_ret].
      destruct m; try apply parts_grown_AddPart. apply parts_grown_add_each. }
    apply Hp, parts_grown_refl.
Qed.

(** X8.  [__add__] of a list stops at the first element that is no
    object.  At a number or a list it raises [TypeError], the objects
    before that element are parts already, and those after it are not
    looked at; at [None] the toolkit faults and the interpreter dies. *)
Theorem add_stops_at_first_non_object `{Externals}
    (st : state) (self : addr) (s : assembly)
    (addrs : list addr) (bad : value) (rest : list value) :
  assemblies st !! self = Some s →
  (∀ a, bad ≠ VRef a) →
  (bad ≠ VNone →
   __add__ self (VList ((VRef <$> addrs) ++ bad :: rest)) st
   = (Raise TypeError,
      set_assemblies st
        (<[self := set_parts s (registered (VRef <$> addrs) (parts s))]>
           (assemblies st)))) ∧
  (bad = VNone →
   fst (__add__ self (VList ((VRef <$> addrs) ++ bad :: rest)) st)
   = Raise InterpreterCrash).
Proof.
  intros Hself Hbad.
  assert (Hrun : __add__ self (VList ((VRef <$> addrs) ++ bad :: rest)) st
                 = (s1 <~ (AddPart self bad ;;; add_each self rest) ;; ret self)
                     (set_assemblies st
                        (<[self := set_parts s
                                     (registered (VRef <$> addrs) (parts s))]>
                           (assemblies st)))).
  { unfold __add__. unfold bind at 1. rewrite add_each_app. unfold bind at 1.
    by rewrite (add_each_refs _ _ _ _ Hself). }
  rewrite Hrun. unfold bind. split.
  - intros Hn. by rewrite (AddPart_refused _ _ _ Hbad Hn).
  - intros ->. by rewrite AddPart_None.
Qed.

Section MoreAddingExamples.
#[local] Existing Instance sample_externals.

(** [group + [delta, 7]]: the number is refused and "delta" is a part. *)
Lemma add_only_grows_parts_witness :
  fst (__add__ 0%nat (VList [VRef 3; VInt 7]) sample_grouped)
  = Raise TypeError ∧
  parts_grown sample_grouped 0%nat
    (snd (__add__ 0%nat (VList [VRef 3; VInt 7]) sample_grouped)).
Proof.
  split; [reflexivity | ].
  destruct (add_only_grows_parts sample_grouped 0%nat
              (VList [VRef 3; VInt 7])) as [Hno Hgrow].
  apply Hgrow, Hno. cbn [added_items].
  intros Hin. apply elem_of_cons in Hin as [? | Hin]; [discriminate | ].
  apply elem_of_cons in Hin as [? | Hin]; [discriminate | ].
  by apply elem_of_nil in Hin.
Defined.

(** [group + [delta, 7, actor]]: "delta" is a part, the actor is not. *)
Lemma add_stops_at_first_non_object_witness :
  assemblies sample_grouped !! 0%nat = Some sample_group ∧
  ∃ st' s',
    __add__ 0%nat (VList [VRef 3; VInt 7; VRef 4]) sample_grouped
    = (Raise TypeError, st') ∧
    assemblies st' !! 0%nat = Some s' ∧
    parts s' = [0; 1; 2; 3]%nat.
Proof.
  assert (Hself : assemblies sample_grouped !! 0%nat = Some sample_group)
    by reflexivity.
  split; [exact Hself | ].
  destruct (add_stops_at_first_non_object sample_grouped 0%nat sample_group
              [3%nat] (VInt 7) [VRef 4] Hself) as [Htype _].
  { intros a. discriminate. }
  eexists _, _. split; [apply Htype; discriminate | ]. by split.
Defined.

End MoreAddingExamples.

(** ** Cloning: failure, effects, and what the clone is *)

Section MoreCloning.
Context `{Externals}.
Open Scope nat_scope.

Lemma clone_each_app (l l' newlist : list value) (st : state) :
  clone_each (l ++ l') newlist st
  = (acc <~ clone_each l newlist ;; clone_each l' acc) st.
Proof.
  revert newlist st. induction l as [ | a l IH]; intros newlist st;
    [reflexivity | ].
  cbn [app clone_each]. unfold bind.
  destruct (part_clone a st) as [[c | e] st1]; [ | reflexivity].
  rewrite IH. reflexivity.
Qed.

Lemma part_clone_uncloneable (v : value) (st : state) (new : list object) :
  uncloneable st v →
  part_clone v (set_heap st (heap st ++ new))
  = (Raise AttributeError, set_heap st (heap st ++ new)).
Proof.
  destruct v as [ | n | a | l]; try reflexivity.
  intros (o & Ho & Hc). unfold part_clone. cbn [heap set_heap].
  by rewrite (lookup_app_l_Some _ _ _ _ Ho), Hc.
Qed.

Lemma framed_part_clone (st0 : state) (v : value) :
  framed st0 (part_clone v) (λ _, True).
Proof.
  intros st [Hh Ha]. unfold wp, part_clone.
  destruct v as [ | n | a | l]; try by split.
  destruct (heap st !! a) as [o | ]; [ | by split].
  destruct (o_clone o); [ | by split].
  split; [split | done]; [by apply prefix_app_r | exact Ha].
Qed.

Lemma framed_clone_each (st0 : state) (l newlist : list value) :
  framed st0 (clone_each l newlist) (λ _, True).
Proof.
  revert newlist. induction l as [ | a l IH]; intros newlist.
  - by apply framed_ret.
  - cbn [clone_each]. eapply framed_bind; [apply framed_part_clone | ].
    intros c _. apply IH.
Qed.

Lemma framed_weaken_true {A} (st0 : state) (c : M A) (Q : A → Prop) :
  framed st0 c Q → framed st0 c (λ _, True).
Proof.
  intros Hc st Hst. specialize (Hc st Hst). unfold wp in *.
  destruct (c st) as [[a | e] st1]; [ | exact Hc]. by destruct Hc.
Qed.

Lemma framed_clone (st0 : state) (self : addr) :
  framed st0 (clone self) (λ _, True).
Proof.
  unfold clone.
  eapply framed_bind with (Q := λ _, True).
  { apply framed_reader. intros st. unfold get_assembly.
    by destruct (assemblies st !! self). }
  intros s _. eapply framed_bind; [apply framed_clone_each | ].
  intros newlist _. eapply framed_weaken_true, framed_Assembly.
Qed.

(** [clone] on parts that all support cloning: the copies, then the new
    assembly built on them. *)
Lemma clone_eq (st : state) (self : addr) (s : assembly)
    (objs : list object) :
  assemblies st !! self = Some s →
  Forall2 (λ v o, obj_of st v = Some o ∧ o_clone o = true) (actors s) objs →
  anchored st (actors s) →
  clone self st
  = (Ok (length (assemblies st)),
     set_assemblies (set_heap st (heap st ++ objs))
       (assemblies st ++
        [built (set_heap st (heap st ++ objs)) blank
           (VRef <$> seq (length (heap st)) (length (actors s)))])).
Proof.
  intros Hself Hobjs Hanch.
  set (newlist := VRef <$> seq (length (heap st)) (length (actors s))).
  set (st1 := set_heap st (heap st ++ objs)).
  unfold clone, bind. rewrite (get_assembly_eq _ _ _ Hself).
  rewrite (clone_each_eq _ _ _ _ Hobjs). cbn [app].
  apply (Assembly_ok [VList newlist] newlist st1); [reflexivity | | ].
  - unfold renderables, newlist. apply Forall_fmap, Forall_forall.
    intros a _ _. by eexists.
  - intros m0 Hm0. unfold newlist in Hm0.
    destruct Hobjs as [ | v o l objs' [Ho Hc] Hrest]; [discriminate | ].
    cbn in Hm0. injection Hm0 as <-.
    assert (Hnew : ∀ k, attr_of st1 (VRef (length (heap st))) k
                        = attr_of st v k).
    { intros k. unfold attr_of. rewrite Ho. unfold st1. cbn.
      by rewrite list_lookup_middle. }
    rewrite !Hnew. by apply Hanch.
Qed.

(** The [i]-th copy has the attributes of the [i]-th part. *)
Lemma clone_attr (st : state) (l : list value) (objs : list object)
    (i : nat) (v : value) (k : attr) :
  Forall2 (λ v o, obj_of st v = Some o ∧ o_clone o = true) l objs →
  l !! i = Some v →
  attr_of (set_heap st (heap st ++ objs)) (VRef (length (heap st) + i)) k
  = attr_of st v k.
Proof.
  intros Hobjs Hv.
  destruct (Forall2_lookup_l _ _ _ _ _ Hobjs Hv) as (o & Ho' & Ho & _).
  unfold attr_of. rewrite Ho. cbn [obj_of heap set_heap].
  rewrite lookup_app_r by lia.
  replace (length (heap st) + i - length (heap st)) with i by lia.
  by rewrite Ho'.
Qed.

End MoreCloning.

(** X9.  [clone] raises at the first stored entry without a [clone()]
    method, such as a retained [None]: the exception is [AttributeError],
    no assembly is created, and the parts before that entry were copied
    already. *)
Theorem clone_raises_on_uncloneable `{Externals}
    (st : state) (self : addr) (s : assembly)
    (before : list value) (v : value) (after : list value) :
  assemblies st !! self = Some s →
  actors s = before ++ v :: after →
  Forall (cloneable st) before →
  uncloneable st v →
  ∃ st' copies,
    clone self st = (Raise AttributeError, st') ∧
    assemblies st' = assemblies st ∧
    heap st' = heap st ++ copies ∧
    length copies = length before.
Proof.
  intros Hself Hactors Hbefore Hv.
  destruct (cloneable_objects st before Hbefore) as [objs Hobjs].
  exists (set_heap st (heap st ++ objs)), objs.
  split; [ | split; [done | split; [done | ]]].
  - unfold clone, bind. rewrite (get_assembly_eq _ _ _ Hself), Hactors.
    rewrite clone_each_app. unfold bind.
    rewrite (clone_each_eq _ _ _ _ Hobjs). cbn [clone_each]. unfold bind.
    by rewrite (part_clone_uncloneable v st objs Hv).
  - symmetry. by eapply Forall2_length.
Qed.

(** X10.  Whether it returns or raises, [clone] only creates: every
    object and every assembly that existed before the call, the source
    among them, is the same after it. *)
Theorem clone_only_creates `{Externals} (st : state) (self : addr) :
  let st' := snd (clone self st) in
  (∃ new, heap st' = heap st ++ new) ∧
  (∃ new, assemblies st' = assemblies st ++ new) ∧
  (∀ s, assemblies st !! self = Some s → assemblies st' !! self = Some s) ∧
  (∀ v o, obj_of st v = Some o → obj_of st' v = Some o).
Proof.
  intros st'.
  assert (Hext : extends st st').
  { pose proof (framed_clone st self st (extends_refl st)) as Hf.
    unfold wp in Hf. subst st'.
    destruct (clone self st) as [[a | e] st1]; [by destruct Hf | exact Hf]. }
  split; [exact (proj1 Hext) | split; [exact (proj2 Hext) | split]].
  - intros s Hs. by eapply prefix_lookup_Some; [ | exact (proj2 Hext)].
  - intros v o. by apply extends_obj_of.
Qed.

(** X11.  The clone is a new instance: its transform and its info are
    those of any newly constructed assembly, not those of the source, and
    it shares no part with the source: no part of the source is in the
    clone, and no part of the clone is in the source. *)
Theorem clone_is_new_instance `{Externals}
    (st : state) (self : addr) (s : assembly) :
  assemblies st !! self = Some s →
  Forall (cloneable st) (actors s) →
  anchored st (actors s) →
  ∃ self' st' s',
    clone self st = (Ok self', st') ∧
    assemblies st' !! self' = Some s' ∧
    transform s' = transform blank ∧
    info s' = info blank ∧
    (∀ v, v ∈ actors s → __contains__ self' (PVal v) st' = (Ok false, st')) ∧
    (∀ v, v ∈ actors s' → __contains__ self (PVal v) st' = (Ok false, st')).
Proof.
  intros Hself Hall Hanch.
  destruct (cloneable_objects st (actors s) Hall) as [objs Hobjs].
  eexists _, _, _. split; [by apply clone_eq | ].
  split; [apply lookup_snoc | split; [reflexivity | split; [reflexivity | ]]].
  assert (Hold : ∀ v, v ∈ actors s →
                      ∃ a, v = VRef a ∧ (a < length (heap st))%nat).
  { intros v Hv. apply list_elem_of_lookup in Hv as [i Hi].
    destruct (Forall2_lookup_l _ _ _ _ _ Hobjs Hi) as (o & _ & Ho & _).
    by eapply obj_of_bound. }
  assert (Hnew : ∀ v, v ∈ VRef <$> seq (length (heap st)) (length (actors s)) →
                      ∃ a, v = VRef a ∧ (length (heap st) ≤ a)%nat).
  { intros v Hv. apply list_elem_of_fmap in Hv as (a & -> & Ha).
    apply elem_of_seq in Ha. exists a. split; [done | lia]. }
  split.
  - intros v Hv. unfold __contains__, bind.
    erewrite get_assembly_eq; [ | apply lookup_snoc]. unfold ret.
    f_equal. f_equal. cbn [actors built].
    destruct (py_in (PVal v) _) eqn:E; [ | reflexivity].
    apply py_in_spec in E as (w & Hw & [= <-]).
    destruct (Hold v Hv) as (a & -> & Ha).
    destruct (Hnew _ Hw) as (a' & [= <-] & Ha'). lia.
  - intros v Hv. cbn [actors built] in Hv. unfold __contains__, bind.
    erewrite get_assembly_eq;
      [ | cbn; apply lookup_app_l_Some; exact Hself].
    unfold ret. f_equal. f_equal.
    destruct (py_in (PVal v) (actors s)) eqn:E; [ | reflexivity].
    apply py_in_spec in E as (w & Hw & [= <-]).
    destruct (Hold v Hw) as (a & -> & Ha).
    destruct (Hnew _ Hv) as (a' & [= <-] & Ha'). lia.
Qed.

(** X12.  The clone answers lookups by name as the source does: when
    [unpack] of a string finds the [k]-th part of the source, [unpack] of
    that string on the clone finds the [k]-th part of the clone, which
    bears the same name. *)
Theorem clone_keeps_names `{Externals}
    (st : state) (self : addr) (s : assembly)
    (str : string) (k : nat) (m : value) (t : string) :
  assemblies st !! self = Some s →
  Forall (cloneable st) (actors s) →
  anchored st (actors s) →
  actors s !! k = Some m →
  named st m t →
  substring_of str t →
  (∀ j v, (j < k)%nat → actors s !! j = Some v →
          ∃ t', named st v t' ∧ ¬ substring_of str t') →
  ∃ self' st' s' m',
    clone self st = (Ok self', st') ∧
    assemblies st' !! self' = Some s' ∧
    actors s' !! k = Some m' ∧
    named st' m' t ∧
    unpack self' (PStr str) st' = (Ok m', st').
Proof.
  intros Hself Hall Hanch Hk Hm Hsub Hbefore.
  destruct (cloneable_objects st (actors s) Hall) as [objs Hobjs].
  pose proof (lookup_lt_Some _ _ _ Hk) as Hlt.
  assert (Hlook : ∀ j, (j < length (actors s))%nat →
            (VRef <$> seq (length (heap st)) (length (actors s))) !! j
            = Some (VRef (length (heap st) + j))).
  { intros j Hj. by rewrite list_lookup_fmap, lookup_seq_lt. }
  eexists _, _, _, (VRef (length (heap st) + k)).
  split; [by apply clone_eq | ].
  split; [apply lookup_snoc | ].
  split; [cbn [actors built]; by apply Hlook | ].
  split.
  { unfold named. cbn [set_assemblies].
    rewrite attr_of_set_assemblies, (clone_attr st _ _ _ _ _ Hobjs Hk).
    exact Hm. }
  unfold unpack, bind. erewrite get_assembly_eq; [ | apply lookup_snoc].
  cbn [actors built].
  apply (unpack_str_first str _ _ k _ t).
  - by apply Hlook.
  - unfold named.
    rewrite attr_of_set_assemblies, (clone_attr st _ _ _ _ _ Hobjs Hk).
    exact Hm.
  - exact Hsub.
  - intros j v Hj Hv. rewrite Hlook in Hv by lia. injection Hv as <-.
    destruct (lookup_lt_is_Some_2 (actors s) j) as [w Hw]; [lia | ].
    destruct (Hbefore j w Hj Hw) as (t' & Hw' & Hno).
    exists t'. split; [ | exact Hno]. unfold named.
    rewrite attr_of_set_assemblies, (clone_attr st _ _ _ _ _ Hobjs Hw).
    exact Hw'.
Qed.

Section MoreCloningExamples.
#[local] Existing Instance sample_externals.

(** The assembly of [None] and "alpha" cannot be cloned. *)
Lemma clone_raises_on_uncloneable_witness :
  assemblies sample_with_none !! 0%nat = Some sample_group_none ∧
  ∃ st', clone 0%nat sample_with_none = (Raise AttributeError, st') ∧
         assemblies st' = assemblies sample_with_none.
Proof.
  assert (Hself : assemblies sample_with_none !! 0%nat
                  = Some sample_group_none) by reflexivity.
  split; [exact Hself | ].
  destruct (clone_raises_on_uncloneable sample_with_none 0%nat
              sample_group_none [] VNone [VRef 0] Hself)
    as (st' & copies & E & Ha & _); [reflexivity | constructor | exact I | ].
  by exists st'.
Defined.

Lemma clone_only_creates_witness :
  assemblies (snd (clone 0%nat sample_grouped)) !! 0%nat = Some sample_group.
Proof.
  destruct (clone_only_creates sample_grouped 0%nat) as (_ & _ & Hsrc & _).
  by apply Hsrc.
Defined.

Lemma clone_is_new_instance_witness :
  ∃ self' st',
    clone 0%nat sample_grouped = (Ok self', st') ∧
    __contains__ self' (PVal (VRef 1)) st' = (Ok false, st').
Proof.
  destruct (clone_is_new_instance sample_grouped 0%nat sample_group)
    as (self' & st' & s' & E & _ & _ & _ & Hc & _).
  - reflexivity.
  - repeat constructor; by eexists.
  - intros m Hm _. injection Hm as <-. by eexists.
  - exists self', st'. split; [exact E | ].
    apply Hc. apply elem_of_cons. right. by left.
Defined.

(** "et" finds "beta" in the group and the copy of "beta" in its clone. *)
Lemma clone_keeps_names_witness :
  ∃ self' st' m',
    clone 0%nat sample_grouped = (Ok self', st') ∧
    named st' m' "beta" ∧
    unpack self' (PStr "et") st' = (Ok m', st').
Proof.
  destruct (clone_keeps_names sample_grouped 0%nat sample_group
              "et" 1%nat (VRef 1) "beta")
    as (self' & st' & s' & m' & E & _ & _ & Hn & Hu).
  - reflexivity.
  - repeat constructor; by eexists.
  - intros m Hm _. injection Hm as <-. by eexists.
  - reflexivity.
  - reflexivity.
  - exists "b", "a". reflexivity.
  - intros j v Hj Hv. assert (j = 0%nat) as -> by lia.
    injection Hv as <-. exists "alpha". split; [reflexivity | ].
    intros Hsub. apply str_in_spec in Hsub. discriminate.
  - by exists self', st', m'.
Defined.

End MoreCloningExamples.

(** ** The alignment: when it returns, and what it returns *)

Section MoreAlignment.
Context `{Externals}.
Open Scope nat_scope.

(** The state and the assembly that [procrustesAlignment] ends with. *)
Lemma procrustesAlignment_eq (st : state) (sources : list value)
    (rigid : bool) (n : nat) (objs : list object) :
  sources ≠ [] →
  Forall2 (λ v o, obj_of st v = Some o ∧
                  is_Some (o_polydata o) ∧ is_Some (o_property o) ∧
                  (is_Some (o_name o) → is_Some (o_flagText o)))
    sources objs →
  Forall (λ v, point_count st v = Some n) sources →
  let group := omap (polydata_of st) sources in
  let acts := VRef <$> seq (length (heap st)) (length sources) in
  let st1 :=
    set_heap st (heap st ++ wrapped_from (GetBlock rigid group) 0 objs) in
  procrustesAlignment sources rigid st
  = (Ok (length (assemblies st)),
     set_assemblies st1
       (assemblies st ++
        [set_info
           (set_transform (built st1 blank acts)
              (GetLandmarkTransform rigid group))
           "mean" (GetMeanPoints rigid group)])).
Proof.
  intros Hne Hobjs Hcount group acts st1.
  unfold procrustesAlignment. unfold bind at 1.
  rewrite (group_all_eq sources st n Hne Hcount). fold group.
  unfold bind at 1.
  rewrite (wrap_outputs_eq _ st sources objs Hobjs st 0%nat []); [ | done].
  cbn [app]. fold acts. fold st1. unfold bind at 1.
  rewrite (Assembly_ok [VList acts] acts st1); [ | reflexivity | | ].
  - unfold bind at 1.
    erewrite update_eq; [ | apply lookup_snoc].
    unfold bind at 1. cbn [assemblies set_assemblies]. rewrite insert_snoc.
    erewrite update_eq; [ | apply lookup_snoc].
    unfold ret. cbn [assemblies set_assemblies]. by rewrite insert_snoc.
  - unfold renderables, acts. apply Forall_fmap, Forall_forall.
    intros a _ _. by eexists.
  - intros m0 Hm0. rewrite head_lookup in Hm0. unfold acts in Hm0.
    rewrite list_lookup_fmap in Hm0.
    apply fmap_Some in Hm0 as (a & Ea & ->).
    apply lookup_seq in Ea. destruct Ea as [Ea Hlen]. subst a.
    destruct (lookup_lt_is_Some_2 sources 0%nat Hlen) as [v Hv].
    destruct (Forall2_lookup_l _ _ _ _ _ Hobjs Hv) as (o & Ho & _).
    unfold attr_of, st1. cbn [obj_of heap set_heap].
    rewrite lookup_app_r by lia.
    replace (length (heap st) + 0 - length (heap st))%nat with 0%nat by lia.
    rewrite (wrapped_from_lookup _ _ 0%nat 0%nat o Ho). cbn.
    destruct Mesh_anchors as [[b t] | ]; cbn; [by eexists | ].
    by intros [? ?].
Qed.

(** When the first loop returns, the state is as it was and every source
    has the point count of the first. *)
Lemma group_sources_inv (first : value) (l : list value)
    (group group' : list Polydata) (st st' : state) :
  group_sources first l group st = (Ok group', st') →
  st' = st ∧
  (l ≠ [] → ∃ n, point_count st first = Some n ∧
                 Forall (λ v, point_count st v = Some n) l).
Proof.
  revert group. induction l as [ | x l IH]; intros group E.
  - cbn in E. injection E as <- <-. by split.
  - cbn [group_sources] in E. unfold bind in E. rewrite N_eq in E.
    destruct (point_count st first) as [n0 | ] eqn:E0; [ | discriminate].
    rewrite N_eq in E.
    destruct (point_count st x) as [nx | ] eqn:Ex; [ | discriminate].
    destruct (Nat.eqb n0 nx) eqn:Eq; cbn [negb] in E; [ | discriminate].
    apply Nat.eqb_eq in Eq. subst nx. rewrite polydata_eq in E.
    destruct (polydata_of st x) as [p | ]; [ | discriminate].
    destruct (IH _ E) as [-> Hrest]. split; [done | ]. intros _.
    exists n0. split; [done | ]. constructor; [done | ].
    destruct l as [ | y l]; [constructor | ].
    destruct Hrest as (n & Hn & Hall); [done | ].
    assert (n = n0) as -> by congruence. exact Hall.
Qed.

(** One turn of the second loop raises on a source without a property, or
    with a name and no flag text. *)
Lemma wrap_one_raises (block : nat → Polydata) (i : nat) (s : value)
    (o : object) (st : state) (k : addr → M (list value)) :
  obj_of st s = Some o →
  o_property o = None ∨ (is_Some (o_name o) ∧ o_flagText o = None) →
  ∃ st',
    (mesh <~ Mesh (block i) ;;
     p <~ GetProperty s ;;
     SetProperty mesh p ;;;
     has <~ hasattr s attr_name ;;
     (if has : bool
      then n <~ getattr s attr_name ;;
           setattr mesh attr_name n ;;;
           f <~ getattr s attr_flagText ;;
           setattr mesh attr_flagText f
      else ret tt) ;;;
     k mesh) st
    = (Raise AttributeError, st').
Proof.
  intros Ho Hbad.
  assert (Hext : ∀ new, obj_of (set_heap st (heap st ++ new)) s = Some o)
    by (intros new; by apply obj_of_app).
  unfold bind at 1. unfold Mesh at 1. cbv beta iota.
  unfold bind at 1.
  destruct (o_property o) as [p | ] eqn:Hp.
  - destruct Hbad as [? | [[n Hn] Hf]]; [discriminate | ].
    rewrite (GetProperty_eq s o p _ (Hext _) Hp).
    unfold bind at 1. erewrite SetProperty_last; [ | reflexivity].
    rewrite set_heap_twice.
    unfold bind at 1. rewrite hasattr_eq, (attr_of_obj _ _ _ _ (Hext _)).
    cbn [obj_attr]. rewrite Hn.
    unfold bind at 1. unfold bind at 1.
    rewrite getattr_eq, (attr_of_obj _ _ _ _ (Hext _)). cbn [obj_attr].
    rewrite Hn. unfold bind at 1.
    erewrite setattr_last; [ | reflexivity]. rewrite set_heap_twice.
    unfold bind at 1.
    rewrite getattr_eq, (attr_of_obj _ _ _ _ (Hext _)). cbn [obj_attr].
    rewrite Hf. by eexists.
  - destruct s as [ | z | a | l]; cbn in Ho; try discriminate.
    unfold GetProperty. cbn [heap set_heap].
    rewrite (lookup_app_l_Some _ _ _ _ Ho), Hp. by eexists.
Qed.

(** When the second loop returns, every source had a property, and a
    flag text if it had a name. *)
Lemma wrap_outputs_inv (block : nat → Polydata) (st0 : state)
    (l : list value) :
  Forall (λ v, is_Some (obj_of st0 v)) l →
  ∀ (st : state) (i : nat) (acts acts' : list value) (st' : state),
    (∀ v o, obj_of st0 v = Some o → obj_of st v = Some o) →
    wrap_outputs block i l acts st = (Ok acts', st') →
    Forall (λ v, ∃ o, obj_of st0 v = Some o ∧ is_Some (o_property o) ∧
                      (is_Some (o_name o) → is_Some (o_flagText o))) l.
Proof.
  induction 1 as [ | v l [o Ho] _ IH]; intros st i acts acts' st' Hext E;
    [constructor | ].
  cbn [wrap_outputs] in E.
  destruct (o_property o) as [p | ] eqn:Hp.
  - destruct (o_name o) as [n | ] eqn:Hn.
    + destruct (o_flagText o) as [f | ] eqn:Hf.
      * rewrite (wrap_one block i v o st _ (Hext _ _ Ho)) in E.
        2: { rewrite Hp. by eexists. }
        2: { intros _. rewrite Hf. by eexists. }
        constructor.
        { exists o. rewrite Hp, Hf. split; [done | split; by eexists]. }
        eapply IH; [ | exact E].
        intros v' o' Hv'. by apply obj_of_app, Hext.
      * destruct (wrap_one_raises block i v o st
                    (λ mesh, wrap_outputs block (S i) l (acts ++ [VRef mesh]))
                    (Hext _ _ Ho)) as [st'' E'].
        { right. rewrite Hn. split; [by eexists | done]. }
        rewrite E' in E. discriminate.
    + rewrite (wrap_one block i v o st _ (Hext _ _ Ho)) in E.
      2: { rewrite Hp. by eexists. }
      2: { rewrite Hn. by intros [? ?]. }
      constructor.
      { exists o. rewrite Hp, Hn. split; [done | split; [by eexists | ]].
        by intros [? ?]. }
      eapply IH; [ | exact E].
      intros v' o' Hv'. by apply obj_of_app, Hext.
  - destruct (wrap_one_raises block i v o st
                (λ mesh, wrap_outputs block (S i) l (acts ++ [VRef mesh]))
                (Hext _ _ Ho)) as [st'' E']; [by left | ].
    rewrite E' in E. discriminate.
Qed.

Lemma point_count_obj (st : state) (v : value) (n : nat) :
  point_count st v = Some n →
  ∃ o, obj_of st v = Some o ∧ is_Some (o_polydata o).
Proof.
  unfold point_count, polydata_of. intros E.
  destruct (obj_of st v) as [o | ]; [ | discriminate].
  exists o. split; [done | ].
  destruct (o_polydata o); [by eexists | discriminate].
Qed.

Lemma wrapped_from_length (block : nat → Polydata) (objs : list object)
    (i : nat) :
  length (wrapped_from block i objs) = length objs.
Proof.
  revert i. induction objs as [ | o objs IH]; intros i; cbn;
    [done | by rewrite IH].
Qed.

End MoreAlignment.

(** X13.  For sources that are not empty, [procrustesAlignment] returns
    exactly when every source is a point-set object (with a property, and a
    flag text if it has a name) and all have the same point count; in
    every other case it raises. *)
Theorem procrustesAlignment_returns_iff `{Externals}
    (st : state) (sources : list value) (rigid : bool) :
  sources ≠ [] →
  (∃ self st', procrustesAlignment sources rigid st = (Ok self, st')) ↔
  (Forall (is_source st) sources ∧
   ∃ n, Forall (λ v, point_count st v = Some n) sources).
Proof.
  intros Hne. split.
  - intros (self & st' & E). unfold procrustesAlignment in E.
    unfold bind at 1 in E.
    destruct sources as [ | first rest]; [done | ].
    destruct (group_sources first (first :: rest) [] st)
      as [[group | e] st1] eqn:Eg; [ | discriminate].
    destruct (group_sources_inv _ _ _ _ _ _ Eg) as [-> Hcount].
    destruct Hcount as (n & _ & Hcount); [done | ].
    unfold bind at 1 in E.
    destruct (wrap_outputs _ 0%nat (first :: rest) [] st)
      as [[acts | e] st2] eqn:Ew; [ | discriminate].
    assert (Hobj : Forall (λ v, is_Some (obj_of st v)) (first :: rest)).
    { eapply Forall_impl; [exact Hcount | ].
      intros v Hv. destruct (point_count_obj _ _ _ Hv) as (o & Ho & _).
      by eexists. }
    pose proof (wrap_outputs_inv _ st _ Hobj st 0%nat [] acts st2
                  (λ _ _ Hv, Hv) Ew) as Hprop.
    split; [ | by exists n].
    apply Forall_forall. intros v Hv.
    rewrite Forall_forall in Hprop, Hcount.
    destruct (Hprop v Hv) as (o & Ho & Hp & Hf).
    destruct (point_count_obj _ _ _ (Hcount v Hv)) as (o' & Ho' & Hpoly).
    exists o. split; [done | ].
    assert (o' = o) as -> by congruence. by repeat split.
  - intros (Hsrc & n & Hcount).
    destruct (source_objects st sources Hsrc) as [objs Hobjs].
    eexists _, _. by eapply procrustesAlignment_eq.
Qed.

(** X14.  The mesh that wraps the [i]-th output takes the name and the
    flag text of the [i]-th source when that source has a name, and keeps
    those of a new mesh otherwise. *)
Theorem procrustesAlignment_names `{Externals}
    (st : state) (sources : list value) (rigid : bool) (n : nat) :
  sources ≠ [] →
  Forall (is_source st) sources →
  Forall (λ v, point_count st v = Some n) sources →
  ∃ self st' s,
    procrustesAlignment sources rigid st = (Ok self, st') ∧
    assemblies st' !! self = Some s ∧
    (∀ (i : nat) (v : value) (src : object),
        sources !! i = Some v →
        obj_of st v = Some src →
        ∃ a o,
          actors s !! i = Some (VRef a) ∧
          heap st' !! a = Some o ∧
          (∀ nm, o_name src = Some nm →
                 o_name o = Some nm ∧ o_flagText o = o_flagText src) ∧
          (o_name src = None →
           o_name o = Mesh_name ∧ o_flagText o = Mesh_flagText)).
Proof.
  intros Hne Hsrc Hcount.
  destruct (source_objects st sources Hsrc) as [objs Hobjs].
  eexists _, _, _. split; [by eapply procrustesAlignment_eq | ].
  split; [apply lookup_snoc | ].
  intros i v src Hv Hsrc'.
  destruct (Forall2_lookup_l _ _ _ _ _ Hobjs Hv) as (o & Ho' & Ho & _).
  assert (o = src) as -> by congruence.
  pose proof (lookup_lt_Some _ _ _ Hv) as Hi.
  eexists (length (heap st) + i)%nat, _.
  split.
  { cbn. by rewrite list_lookup_fmap, lookup_seq_lt. }
  split.
  { cbn. rewrite lookup_app_r by lia.
    replace (length (heap st) + i - length (heap st))%nat with i by lia.
    by rewrite (wrapped_from_lookup _ _ 0%nat i src Ho'). }
  split.
  - intros nm Hnm. cbn. by rewrite Hnm.
  - intros Hnm. cbn. by rewrite Hnm.
Qed.

(** X15.  In the assembly that [procrustesAlignment] returns, the parts of
    the scene node are the stored meshes, all created by the call; no
    source is in the assembly. *)
Theorem procrustesAlignment_result_is_new `{Externals}
    (st : state) (sources : list value) (rigid : bool) (n : nat) :
  sources ≠ [] →
  Forall (is_source st) sources →
  Forall (λ v, point_count st v = Some n) sources →
  ∃ self st' s,
    procrustesAlignment sources rigid st = (Ok self, st') ∧
    assemblies st' !! self = Some s ∧
    (∀ a, a ∈ parts s ↔ VRef a ∈ actors s) ∧
    (∀ a, a ∈ parts s → heap st !! a = None ∧ is_Some (heap st' !! a)) ∧
    (∀ v, v ∈ sources → __contains__ self (PVal v) st' = (Ok false, st')).
Proof.
  intros Hne Hsrc Hcount.
  destruct (source_objects st sources Hsrc) as [objs Hobjs].
  pose proof (Forall2_length _ _ _ Hobjs) as Hlen.
  eexists _, _, _. split; [by eapply procrustesAlignment_eq | ].
  split; [apply lookup_snoc | ].
  cbn [actors parts set_info set_transform built blank].
  assert (Hparts : ∀ a,
            a ∈ registered (VRef <$> seq (length (heap st)) (length sources)) []
            ↔ VRef a ∈ VRef <$> seq (length (heap st)) (length sources)).
  { intros a. rewrite elem_of_registered, elem_of_nil. tauto. }
  split; [exact Hparts | split].
  - intros a Ha. apply Hparts, list_elem_of_fmap in Ha as (b & [= <-] & Ha).
    apply elem_of_seq in Ha.
    split; [apply lookup_ge_None; lia | ].
    apply lookup_lt_is_Some. cbn. rewrite length_app, wrapped_from_length.
    lia.
  - intros v Hv. unfold __contains__, bind.
    erewrite get_assembly_eq; [ | apply lookup_snoc]. unfold ret.
    f_equal. f_equal. cbn [actors set_info set_transform built].
    destruct (py_in (PVal v) _) eqn:E; [ | reflexivity].
    apply py_in_spec in E as (w & Hw & [= <-]).
    apply list_elem_of_fmap in Hw as (a & -> & Ha).
    apply elem_of_seq in Ha.
    rewrite Forall_forall in Hsrc. destruct (Hsrc _ Hv) as (o & Ho & _).
    destruct (obj_of_bound _ _ _ Ho) as (a' & [= <-] & Ha'). lia.
Qed.

Section MoreAlignmentExamples.
#[local] Existing Instance sample_externals.

(** The bare toolkit actor is no source. *)
Lemma procrustesAlignment_returns_iff_witness :
  ¬ (∃ self st',
       procrustesAlignment [VRef 0; VRef 4] false sample_state
       = (Ok self, st')).
Proof.
  intros Hret.
  apply (procrustesAlignment_returns_iff sample_state [VRef 0; VRef 4] false)
    in Hret as [Hsrc _]; [ | discriminate].
  inversion Hsrc as [ | ? ? _ Hrest]; subst.
  inversion Hrest as [ | ? ? (o & Ho & [p Hp] & _) _]; subst.
  injection Ho as <-. discriminate Hp.
Defined.

Lemma procrustesAlignment_names_witness :
  ∃ self st' s a o,
    procrustesAlignment [VRef 0; VRef 1; VRef 2] false sample_state
    = (Ok self, st') ∧
    assemblies st' !! self = Some s ∧
    actors s !! 1%nat = Some (VRef a) ∧
    heap st' !! a = Some o ∧
    o_name o = Some (PStr "beta").
Proof.
  destruct (procrustesAlignment_names sample_state
              [VRef 0; VRef 1; VRef 2] false 4%nat)
    as (self & st' & s & E & Hs & Hall).
  - discriminate.
  - repeat constructor; eexists; (split; [reflexivity | ]);
      repeat split; by eexists.
  - by repeat constructor.
  - destruct (Hall 1%nat (VRef 1) (sample_mesh "beta" 4) eq_refl eq_refl)
      as (a & o & Ha & Ho & Hname & _).
    exists self, st', s, a, o.
    split; [exact E | split; [exact Hs | split; [exact Ha | ]]].
    split; [exact Ho | ]. by destruct (Hname (PStr "beta") eq_refl).
Defined.

Lemma procrustesAlignment_result_is_new_witness :
  ∃ self st',
    procrustesAlignment [VRef 0; VRef 1; VRef 2] false sample_state
    = (Ok self, st') ∧
    __contains__ self (PVal (VRef 1)) st' = (Ok false, st').
Proof.
  destruct (procrustesAlignment_result_is_new sample_state
              [VRef 0; VRef 1; VRef 2] false 4%nat)
    as (self & st' & s & E & _ & _ & _ & Hc).
  - discriminate.
  - repeat constructor; eexists; (split; [reflexivity | ]);
      repeat split; by eexists.
  - by repeat constructor.
  - exists self, st'. split; [exact E | ].
    apply Hc. apply elem_of_cons. right. by left.
Defined.

End MoreAlignmentExamples.

(** ** Chained additions, and lookups that raise *)

Section MoreLookups.
Context `{Externals}.
Open Scope nat_scope.

(** The search of [unpack] passes over the entries whose name is a string
    that does not hold the one looked for. *)
Lemma unpack_str_drop (str : string) (l : list value) (st : state)
    (k : nat) :
  (∀ j v, j < k → l !! j = Some v →
          ∃ t', named st v t' ∧ ¬ substring_of str t') →
  unpack_str str l st = unpack_str str (drop k l) st.
Proof.
  revert l. induction k as [ | k IH]; intros l Hbefore; [by rewrite drop_0 | ].
  destruct l as [ | x l]; [reflexivity | ].
  cbn [drop unpack_str]. unfold bind. rewrite getattr_eq.
  destruct (Hbefore 0 x) as (t' & Hx & Hno); [lia | reflexivity | ].
  rewrite Hx. cbn [str_in_obj].
  destruct (str_in str t') eqn:E; [by apply str_in_spec in E | ].
  apply IH. intros j v Hj Hv. apply (Hbefore (S j) v); [lia | exact Hv].
Qed.

End MoreLookups.

(** X16.  Additions chain: adding a list and then another to what
    [__add__] returned is adding the two lists joined, whether this
    returns or raises; and adding one object is adding the list of that
    object. *)
Theorem add_chains `{Externals} (st : state) (self : addr) :
  (∀ l1 l2 : list value,
      (s1 <~ __add__ self (VList l1) ;; __add__ s1 (VList l2)) st
      = __add__ self (VList (l1 ++ l2)) st) ∧
  (∀ m : value,
      (∀ l, m ≠ VList l) →
      __add__ self m st = __add__ self (VList [m]) st).
Proof.
  split.
  - intros l1 l2. unfold __add__, bind. rewrite add_each_app. unfold bind.
    by destruct (add_each self l1 st) as [[[] | e] st1].
  - intros m Hm. unfold __add__, bind. cbn [add_each]. unfold bind, ret.
    destruct m as [ | n | a | l]; try by destruct (AddPart self _ st) as [[[] | e] st1].
    by destruct (Hm l).
Qed.

(** X17.  [unpack] of a string raises at the first entry it cannot test:
    [AttributeError] when the entry has no name, [TypeError] when its name
    is neither a string nor a list; the entries before it having a string
    for a name that does not contain the one looked for. *)
Theorem unpack_raises_at_bad_name `{Externals}
    (st : state) (self : addr) (s : assembly)
    (str : string) (k : nat) (m : value) :
  assemblies st !! self = Some s →
  actors s !! k = Some m →
  (∀ j v, (j < k)%nat → actors s !! j = Some v →
          ∃ t', named st v t' ∧ ¬ substring_of str t') →
  (attr_of st m attr_name = None →
   unpack self (PStr str) st = (Raise AttributeError, st)) ∧
  (∀ w, attr_of st m attr_name = Some (PVal w) →
        (∀ l, w ≠ VList l) →
        unpack self (PStr str) st = (Raise TypeError, st)).
Proof.
  intros Hself Hk Hbefore.
  assert (Hun : unpack self (PStr str) st
                = unpack_str str (m :: drop (S k) (actors s)) st).
  { unfold unpack, bind. rewrite (get_assembly_eq _ _ _ Hself).
    rewrite (unpack_str_drop str (actors s) st k Hbefore).
    by rewrite (drop_S _ _ _ Hk). }
  rewrite Hun. cbn [unpack_str]. unfold bind. rewrite getattr_eq.
  split.
  - by intros ->.
  - intros w -> Hw. destruct w as [ | n | a | l]; try reflexivity.
    by destruct (Hw l).
Qed.

Section MoreLookupsExamples.
#[local] Existing Instance sample_externals.

(** [(group + delta) + [actor]] is [group + [delta, actor]]. *)
Lemma add_chains_witness :
  (s1 <~ __add__ 0%nat (VRef 3) ;; __add__ s1 (VList [VRef 4])) sample_grouped
  = __add__ 0%nat (VList [VRef 3; VRef 4]) sample_grouped.
Proof.
  destruct (add_chains sample_grouped 0%nat) as [Hjoin Hone].
  pose proof (Hjoin [VRef 3] [VRef 4]) as E. cbn [app] in E.
  rewrite <- E. unfold bind.
  rewrite (Hone (VRef 3)); [reflexivity | ]. intros l. discriminate.
Defined.

(** In the assembly of the nameless actor and "alpha", the actor, stored
    first, makes the lookup of "alpha" raise. *)
Lemma unpack_raises_at_bad_name_witness :
  assemblies sample_with_bare !! 0%nat = Some sample_group_bare ∧
  unpack 0%nat (PStr "alpha") sample_with_bare
  = (Raise AttributeError, sample_with_bare).
Proof.
  assert (Hself : assemblies sample_with_bare !! 0%nat
                  = Some sample_group_bare) by reflexivity.
  split; [exact Hself | ].
  destruct (unpack_raises_at_bad_name sample_with_bare 0%nat
              sample_group_bare "alpha" 0%nat (VRef 4) Hself)
    as [Hattr _].
  - reflexivity.
  - intros j v Hj. lia.
  - by apply Hattr.
Defined.

End MoreLookupsExamples.
